(** * EternalJukebox: similarity graph and graph-walking generator

    A shallow embedding of [python_infite.py]: the weighted distance between
    two beats ([get_seg_distances]), the all-pairs graph build
    ([generate_graph]), the beat construction loop of [analyze_audio], and the
    generation loop of [generate_infinite_track].

    Numbers.  A Python float is modelled by the rational it denotes ([Q]);
    infinities, NaN and results beyond the binary64 exponent range are
    outside the model.  The arithmetic that decides sample positions and
    durations (the products, the sum and the difference in
    [generate_infinite_track] and [analyze_audio]) is rounded to binary64,
    to nearest with ties to even, by [round64]; [int(x)] is truncation
    toward zero.  The arithmetic of the distance between two beats is exact.
    NumPy's square root, used by [np.linalg.norm], is a parameter of the
    development: every result below holds for any function put in its place.

    Effects.  [print] calls are recorded in an event log; Python exceptions
    are values of [PyError]; the ambient [random] module is an explicit
    stream of draws; the [while] loop runs on fuel. *)

From Stdlib Require Import QArith Qabs Qround ZArith Lia.
From stdpp Require Import base list sorting.

Local Open Scope Q_scope.

(** * Numbers *)

(** [x < y] on floats, as a boolean. *)
Definition Qltb (x y : Q) : bool := negb (Qle_bool y x).

(** Python's [int(x)] on a float: truncation toward zero. *)
Definition int_of (x : Q) : Z := Z.quot (Qnum x) (Z.pos (Qden x)).

(** The integer part of the base-2 logarithm of the fraction [n / d]. *)
Definition ilog2_frac (n d : positive) : Z :=
  let e0 := (Z.log2 (Z.pos n) - Z.log2 (Z.pos d))%Z in
  if (Z.pos n * 2 ^ Z.max 0 (- e0) <? Z.pos d * 2 ^ Z.max 0 e0)%Z
  then (e0 - 1)%Z else e0.

(** The integer nearest to [a / b], the even one of two equally near. *)
Definition round_half_even (a b : Z) : Z :=
  let q := (a / b)%Z in
  match (2 * (a mod b) ?= b)%Z with
  | Lt => q
  | Gt => (q + 1)%Z
  | Eq => if Z.even q then q else (q + 1)%Z
  end.

(** The binary64 number nearest to the positive fraction [n / d]: a
    significand of 53 bits, scaled by a power of two. *)
Definition round_mag (n d : positive) : Q :=
  let shift := (ilog2_frac n d - 52)%Z in
  let m := round_half_even (Z.pos n * 2 ^ Z.max 0 (- shift))
                           (Z.pos d * 2 ^ Z.max 0 shift) in
  Qred (if (0 <=? shift)%Z then inject_Z (m * 2 ^ shift)
        else Qmake m (Z.to_pos (2 ^ (- shift)))).

(** Rounding of a real result to binary64, to nearest, ties to even. *)
Definition round64 (x : Q) : Q :=
  match Qnum x with
  | Z0 => 0
  | Zpos n => round_mag n (Qden x)
  | Zneg n => - round_mag n (Qden x)
  end.

(** The float operations [x * y], [x + y] and [x - y]. *)
Definition fmul (x y : Q) : Q := round64 (x * y).
Definition fadd (x y : Q) : Q := round64 (x + y).
Definition fsub (x y : Q) : Q := round64 (x - y).

(** Python's [round(x)]: to the nearest integer, ties to the even one. *)
Definition py_round (x : Q) : Z :=
  let f := Qfloor x in
  match Qcompare (x - inject_Z f) (1 # 2) with
  | Lt => f
  | Gt => (f + 1)%Z
  | Eq => if Z.even f then f else (f + 1)%Z
  end.

(** * Data model *)

(** One entry of a beat's [neighbors] list: [{'dest': j, 'distance': dist}]. *)
Record Neighbor := mkNeighbor {
  dest : nat;
  distance : Q
}.

(** The dictionary built for each beat by [analyze_audio]. *)
Record Beat := mkBeat {
  index : nat;
  start : Q;
  duration : Q;
  timbre : list Q;
  pitch : list Q;
  loudness_max : Q;
  loudness_start : Q;
  confidence : Q;
  neighbors : list Neighbor
}.

(** [b['neighbors'].append(e)]. *)
Definition append_neighbor (e : Neighbor) (b : Beat) : Beat :=
  mkBeat (index b) (start b) (duration b) (timbre b) (pitch b)
         (loudness_max b) (loudness_start b) (confidence b)
         (neighbors b ++ [e]).

(** The module-level [WEIGHTS] dictionary. *)
Record Weights := mkWeights {
  w_timbre : Q;
  w_pitch : Q;
  w_loudness_start : Q;
  w_loudness_max : Q;
  w_duration : Q;
  w_confidence : Q
}.

Definition WEIGHTS : Weights :=
  mkWeights 1 10 1 1 100 1.

(** * Similarity metric *)

Section Metric.

(** NumPy's square root. *)
Variable sqrt : Q -> Q.

(** [v1 - v2] on two feature columns of the same shape. *)
Definition vsub (v1 v2 : list Q) : list Q := zip_with Qminus v1 v2.

(** Sum of the squared components. *)
Definition sum_squares (v : list Q) : Q :=
  foldr (fun x acc => x * x + acc) 0 v.

(** [np.linalg.norm(v)] for a one-dimensional array. *)
Definition norm (v : list Q) : Q := sqrt (sum_squares v).

Definition euclidean_distance (v1 v2 : list Q) : Q := norm (vsub v1 v2).

Definition get_seg_distances (seg1 seg2 : Beat) : Q :=
  let timbre_d := euclidean_distance (timbre seg1) (timbre seg2) in
  let pitch_d := euclidean_distance (pitch seg1) (pitch seg2) in
  let sloudStart := Qabs (loudness_start seg1 - loudness_start seg2) in
  let sloudMax := Qabs (loudness_max seg1 - loudness_max seg2) in
  let duration_d := Qabs (duration seg1 - duration seg2) in
  let confidence_d := Qabs (confidence seg1 - confidence seg2) in
  timbre_d * w_timbre WEIGHTS +
  pitch_d * w_pitch WEIGHTS +
  sloudStart * w_loudness_start WEIGHTS +
  sloudMax * w_loudness_max WEIGHTS +
  duration_d * w_duration WEIGHTS +
  confidence_d * w_confidence WEIGHTS.

(** * Graph build *)

(** The distance tested against the threshold for the pair [(b1, b2)]:
    the raw distance, plus 100 when the two [index] fields differ modulo 4. *)
Definition pair_distance (b1 b2 : Beat) : Q :=
  let dist := get_seg_distances b1 b2 in
  if negb (index b1 mod 4 =? index b2 mod 4)%nat then dist + 100 else dist.

(** State of the build: the beats (whose [neighbors] lists are mutated in
    place) and [edge_count]. *)
Definition GraphState : Type := list Beat * nat.

(** Body of the inner loop, for the pair of positions [(i, j)]. *)
Definition graph_pair (threshold : Q) (i j : nat) (st : GraphState) : GraphState :=
  match fst st !! i, fst st !! j with
  | Some b1, Some b2 =>
      if (i =? j)%nat then st
      else
        let dist := pair_distance b1 b2 in
        if Qltb dist threshold
        then (alter (append_neighbor (mkNeighbor j dist)) i (fst st), S (snd st))
        else st
  | _, _ => st
  end.

(** The inner [for j, b2 in enumerate(beats)] loop for a fixed [i]. *)
Definition graph_row (threshold : Q) (n : nat) (st : GraphState) (i : nat) : GraphState :=
  foldl (fun s j => graph_pair threshold i j s) st (seq 0 n).

(** The two nested loops of [generate_graph]; the result is the mutated
    beat list together with the final [edge_count]. *)
Definition graph_loops (beats : list Beat) (threshold : Q) : GraphState :=
  foldl (graph_row threshold (length beats)) (beats, 0%nat) (seq 0 (length beats)).

End Metric.

(** * Events and errors *)

(** The messages printed by [generate_graph] and [generate_infinite_track],
    in the order the program prints them. *)
Inductive Event :=
| GeneratingGraph (threshold : Q)
| CreatedEdges (edge_count : nat)
| GeneratingAudio (duration_minutes : Q)
| Concatenating
| Saving
| DoneMsg.

(** The Python exceptions the modelled code can raise: an out-of-range
    subscript, and [np.concatenate] applied to an empty list. *)
Inductive PyError := IndexError | ValueError.

(** How a run ends: a value, an exception, or the fuel of the model's
    [while] loop is used up. *)
Inductive Outcome (A : Type) :=
| Returned (a : A)
| Raised (e : PyError)
| OutOfFuel.

Arguments Returned {A} a.
Arguments Raised {A} e.
Arguments OutOfFuel {A}.

Section Graph.

Variable sqrt : Q -> Q.

(** [generate_graph]: prints the threshold, runs the loops, prints the edge
    count and returns the (mutated) beats. *)
Definition generate_graph (beats : list Beat) (threshold : Q) : list Event * list Beat :=
  let st := graph_loops sqrt beats threshold in
  ([GeneratingGraph threshold; CreatedEdges (snd st)], fst st).

End Graph.

(** * Beat construction in [analyze_audio] *)

(** Column [i] of the three beat-synchronised feature matrices
    ([mfcc_sync[:, i]], [chroma_sync[:, i]], [loudness_sync[0, i]]); the
    three matrices have the same number of columns. *)
Record SyncColumn := mkSyncColumn {
  mfcc_col : list Q;
  chroma_col : list Q;
  loudness_col : Q
}.

(** Body of [for i in range(num_beats)]: skip when
    [i >= len(beat_times) - 1], else append the beat's dictionary. *)
Definition beat_step (beat_times : list Q) (sync : list SyncColumn)
    (beats : list Beat) (i : nat) : list Beat :=
  if (Z.of_nat (length beat_times) - 1 <=? Z.of_nat i)%Z then beats
  else
    match beat_times !! i, beat_times !! (i + 1)%nat, sync !! i with
    | Some t0, Some t1, Some c =>
        beats ++ [mkBeat i t0 (fsub t1 t0) (mfcc_col c) (chroma_col c)
                         (loudness_col c) (loudness_col c) 1 []]
    | _, _, _ => beats
    end.

(** The list [beats] returned by [analyze_audio], from the beat times and
    the synchronised features. *)
Definition make_beats (beat_times : list Q) (sync : list SyncColumn) : list Beat :=
  foldl (beat_step beat_times sync) [] (seq 0 (length sync)).

(** * Generation *)

(** The ambient [random] module as a stream of draws. Call number [t] of
    the run returns [random_at t] when it is [random.random()], and the
    element at position [choice_at t mod len(seq)] when it is
    [random.choice(seq)]. *)
Record RandomSource := mkRandomSource {
  random_at : nat -> Q;
  choice_at : nat -> nat
}.

(** [random.choice(seq)]; [None] stands for the IndexError raised on an
    empty sequence. *)
Definition choice {A : Type} (rs : RandomSource) (t : nat) (l : list A) : option A :=
  l !! (choice_at rs t mod length l)%nat.

(** Normalisation of one bound of a slice against the length [len]. *)
Definition clamp_index (len i : Z) : Z :=
  if (i <? 0)%Z then Z.max 0 (i + len) else Z.min i len.

(** [y[a:b]] on a one-dimensional array. *)
Definition py_slice {A : Type} (y : list A) (a b : Z) : list A :=
  let len := Z.of_nat (length y) in
  let lo := clamp_index len a in
  let hi := clamp_index len b in
  take (Z.to_nat (hi - lo)) (drop (Z.to_nat lo) y).

(** [np.concatenate(segments)]: fails on an empty list of arrays. *)
Definition np_concatenate {A : Type} (segments : list (list A)) : PyError + list A :=
  match segments with
  | [] => inl ValueError
  | _ => inr (concat segments)
  end.

(** The local variables of the generation loop, and the number of draws
    taken from the random source so far. *)
Record GenState := mkGenState {
  current_index : nat;
  generated_samples : Z;
  output_segments : list (list Q);
  draws : nat
}.

Section Generator.

Variable y : list Q.
Variable sr : Z.
Variable beats : list Beat.
Variable duration_minutes : Q.
Variable branch_probability : Q.
Variable rs : RandomSource.

Definition target_samples : Z :=
  int_of (fmul (fmul duration_minutes 60) (inject_Z sr)).

Definition start_sample (beat : Beat) : Z :=
  int_of (fmul (start beat) (inject_Z sr)).

Definition end_sample (beat : Beat) : Z :=
  int_of (fmul (fadd (start beat) (duration beat)) (inject_Z sr)).

(** [y[start_sample:end_sample]] for a beat. *)
Definition beat_segment (beat : Beat) : list Q :=
  py_slice y (start_sample beat) (end_sample beat).

(** The loop condition [generated_samples < target_samples]. *)
Definition loop_guard (st : GenState) : bool :=
  (generated_samples st <? target_samples)%Z.

(** [if current_index >= len(beats): current_index = 0]. *)
Definition wrap_index (ci : nat) : nat :=
  if (length beats <=? ci)%nat then 0%nat else ci.

(** One iteration of the [while] loop. *)
Definition loop_body (st : GenState) : PyError + GenState :=
  let ci := wrap_index (current_index st) in
  match beats !! ci with
  | None => inl IndexError
  | Some beat =>
      let segment := beat_segment beat in
      let outs := output_segments st ++ [segment] in
      let gs := (generated_samples st + Z.of_nat (length segment))%Z in
      let t := draws st in
      match neighbors beat with
      | [] => inr (mkGenState (ci + 1) gs outs t)
      | _ :: _ =>
          if Qltb (random_at rs t) branch_probability then
            match choice rs (S t) (neighbors beat) with
            | Some next_beat => inr (mkGenState (dest next_beat) gs outs (S (S t)))
            | None => inl IndexError
            end
          else inr (mkGenState (ci + 1) gs outs (S t))
      end
  end.

(** The [while] loop, on fuel. *)
Fixpoint gen_loop (fuel : nat) (st : GenState) : Outcome GenState :=
  if loop_guard st then
    match fuel with
    | O => OutOfFuel
    | S fuel' =>
        match loop_body st with
        | inl e => Raised e
        | inr st' => gen_loop fuel' st'
        end
    end
  else Returned st.

Definition initial_state : GenState := mkGenState 0 0 [] 0.

(** The trimming after the loop: [full_audio[:target_samples]] when the
    buffer is longer than the target. *)
Definition trim (full_audio : list Q) : list Q :=
  if (target_samples <? Z.of_nat (length full_audio))%Z
  then py_slice full_audio 0 target_samples
  else full_audio.

(** [generate_infinite_track]: the printed messages and the buffer handed
    to [sf.write]. *)
Definition generate_infinite_track (fuel : nat) : list Event * Outcome (list Q) :=
  match gen_loop fuel initial_state with
  | OutOfFuel => ([GeneratingAudio duration_minutes], OutOfFuel)
  | Raised e => ([GeneratingAudio duration_minutes], Raised e)
  | Returned st =>
      match np_concatenate (output_segments st) with
      | inl e => ([GeneratingAudio duration_minutes; Concatenating], Raised e)
      | inr full_audio =>
          ([GeneratingAudio duration_minutes; Concatenating; Saving; DoneMsg],
           Returned (trim full_audio))
      end
  end.

End Generator.

(** * The pipeline of [main] *)

(** [main] from the point where [analyze_audio] has returned [(y, sr, beats)]:
    the graph build, then the generation. *)
Definition main (sqrt : Q -> Q) (y : list Q) (sr : Z) (beats : list Beat)
    (duration threshold prob : Q) (rs : RandomSource) (fuel : nat)
    : list Event * Outcome (list Q) :=
  let g := generate_graph sqrt beats threshold in
  let r := generate_infinite_track y sr (snd g) duration prob rs fuel in
  (fst g ++ fst r, snd r).

(** * Auxiliary definitions for the statements *)

(** A beat with its [neighbors] list replaced. *)
Definition with_neighbors (ns : list Neighbor) (b : Beat) : Beat :=
  mkBeat (index b) (start b) (duration b) (timbre b) (pitch b)
         (loudness_max b) (loudness_start b) (confidence b) ns.

(** The features of a beat, without its neighbours. *)
Definition features (b : Beat) : Beat := with_neighbors [] b.

(** The entry the pair [(i, j)] contributes to row [i], if any. *)
Definition candidate (sqrt : Q -> Q) (threshold : Q) (bs : list Beat)
    (b1 : Beat) (i j : nat) : option Neighbor :=
  match bs !! j with
  | Some b2 =>
      if (i =? j)%nat then None
      else if Qltb (pair_distance sqrt b1 b2) threshold
           then Some (mkNeighbor j (pair_distance sqrt b1 b2))
           else None
  | None => None
  end.

(** The entries appended to row [i] while [j] runs over [js]. *)
Definition row_edges (sqrt : Q -> Q) (threshold : Q) (bs : list Beat)
    (b1 : Beat) (i : nat) (js : list nat) : list Neighbor :=
  omap (candidate sqrt threshold bs b1 i) js.

(** Every beat's [index] field is its position in the list. *)
Definition well_indexed (bs : list Beat) : Prop :=
  forall i b, bs !! i = Some b -> index b = i.

(** No beat has a neighbour yet. *)
Definition fresh (bs : list Beat) : Prop :=
  Forall (fun b => neighbors b = []) bs.

(** Every beat's slice of the buffer holds at least one sample. *)
Definition all_audible (y : list Q) (sr : Z) (bs : list Beat) : Prop :=
  Forall (fun b => (1 <= length (beat_segment y sr b))%nat) bs.

(** [(i, j, d)] is an edge of the graph built at threshold [t]: the list of
    beat [i] holds the entry [(j, d)]. *)
Definition edge (sqrt : Q -> Q) (beats : list Beat) (t : Q) (i j : nat) (d : Q) : Prop :=
  exists b', snd (generate_graph sqrt beats t) !! i = Some b' /\
             mkNeighbor j d ∈ neighbors b'.

(** The counter [generated_samples] is the number of samples emitted. *)
Definition gen_inv (st : GenState) : Prop :=
  generated_samples st = Z.of_nat (length (concat (output_segments st))).

(** The beat at position [k] once the first [m] rows of the graph build are
    done. *)
Definition row_done (sqrt : Q -> Q) (threshold : Q) (beats : list Beat)
    (m k : nat) (b : Beat) : Beat :=
  if (k <? m)%nat
  then with_neighbors
         (neighbors b ++ row_edges sqrt threshold beats b k (seq 0 (length beats))) b
  else b.

(** * Sample data *)

(** A square root to three decimals, for the examples. *)
Definition sqrt_milli (q : Q) : Q :=
  Z.sqrt (Qfloor (q * 1000000)) # 1000.

(** Six beat markers half a second apart, and six feature columns. *)
Definition beat_times_ex : list Q := [0; 1 # 2; 1; 3 # 2; 2; 5 # 2].

Definition column_ex (m c l : Q) : SyncColumn :=
  mkSyncColumn (replicate 12 m) (replicate 12 c) l.

Definition sync_ex : list SyncColumn :=
  [column_ex 3 (1 # 2) (-12); column_ex 7 (1 # 4) (-20);
   column_ex 3 (1 # 2) (-12); column_ex 5 (1 # 2) (-9);
   column_ex 3 (1 # 2) (-11); column_ex 4 (1 # 8) (-30)].

(** The five beats [analyze_audio] builds from them. *)
Definition beats_ex : list Beat :=
  Eval vm_compute in make_beats beat_times_ex sync_ex.

(** Twenty samples at 8 Hz. *)
Definition y_ex : list Q :=
  Eval vm_compute in (fun k => inject_Z (Z.of_nat k)) <$> seq 0 20.

Definition sr_ex : Z := 8.

Definition rs_ex : RandomSource := mkRandomSource (fun t => 1 # 4) (fun t => t).

(** One beat of positive duration, shorter than a sample at 22050 Hz. *)
Definition short_beat : Beat :=
  mkBeat 0 0 (1 # 65536) (replicate 12 0) (replicate 12 0) (-10) (-10) 1 [].

(** The sample rate [librosa.load] resamples to by default. *)
Definition sr_default : Z := 22050.

(** The graph built on the sample beats at the default threshold. *)
Definition graph_ex : list Beat :=
  Eval vm_compute in snd (generate_graph sqrt_milli beats_ex 60).

(** Beats 0, 1 and 4 of the sample. *)
Definition beat0_ex : Beat :=
  Eval vm_compute in default short_beat (beats_ex !! 0%nat).
Definition beat1_ex : Beat :=
  Eval vm_compute in default short_beat (beats_ex !! 1%nat).
Definition beat4_ex : Beat :=
  Eval vm_compute in default short_beat (beats_ex !! 4%nat).

(** The distance tested for the pair of beats 0 and 4. *)
Definition d04_ex : Q :=
  Eval vm_compute in pair_distance sqrt_milli beat0_ex beat4_ex.

(** The raw distances of the pairs of beats 0, 4 and 0, 1. *)
Definition raw04_ex : Q :=
  Eval vm_compute in get_seg_distances sqrt_milli beat0_ex beat4_ex.

Definition raw01_ex : Q :=
  Eval vm_compute in get_seg_distances sqrt_milli beat0_ex beat1_ex.

(** The float read from [--duration 0.63]. *)
Definition minutes_063 : Q := Eval vm_compute in round64 (63 # 100).

(** A beat one sample wide in exact arithmetic, empty in float arithmetic:
    it starts at the float 1.1145578231292517 and lasts 2^-20 s. *)
Definition boundary_start : Q :=
  Eval vm_compute in round64 (11145578231292517 # 10000000000000000).

Definition boundary_beat : Beat :=
  mkBeat 0 boundary_start (1 # 1048576)
         (replicate 12 0) (replicate 12 0) (-10) (-10) 1 [].

(** * Auxiliary definitions for the further properties *)

(** The dictionary [analyze_audio] builds at loop index [i], when it builds
    one. *)
Definition beat_at (beat_times : list Q) (sync : list SyncColumn) (i : nat)
    : option Beat :=
  match beat_times !! i, beat_times !! (i + 1)%nat, sync !! i with
  | Some t0, Some t1, Some c =>
      Some (mkBeat i t0 (fsub t1 t0) (mfcc_col c) (chroma_col c)
                   (loudness_col c) (loudness_col c) 1 [])
  | _, _, _ => None
  end.

(** Beat markers in strictly increasing order. *)
Definition increasing (beat_times : list Q) : Prop :=
  forall i t0 t1,
    beat_times !! i = Some t0 -> beat_times !! (i + 1)%nat = Some t1 -> t0 < t1.

(** The number of [neighbors] entries over all beats. *)
Definition total_neighbors (bs : list Beat) : nat :=
  sum_list ((fun b => length (neighbors b)) <$> bs).

(** The segment played at iteration [k] of a walk that never branches. *)
Definition cyclic_segment (y : list Q) (sr : Z) (beats : list Beat) (k : nat)
    : list Q :=
  match beats !! (k mod length beats)%nat with
  | Some b => beat_segment y sr b
  | None => []
  end.

(** * Sample data for the further properties *)

(** Beat 0 of the sample graph, and of the graph built a second time on it. *)
Definition graph0_ex : Beat :=
  Eval vm_compute in default short_beat (graph_ex !! 0%nat).

Definition graph0_twice_ex : Beat :=
  Eval vm_compute in
    default short_beat (snd (generate_graph sqrt_milli graph_ex 60) !! 0%nat).

(** The state in which a walk of 30 samples without branching ends. *)
Definition walk_ex : GenState :=
  Eval vm_compute in
    match gen_loop y_ex sr_ex graph_ex (1 # 16) 0 rs_ex 30 initial_state with
    | Returned s => s
    | _ => initial_state
    end.

(** The state after a first iteration that jumps. *)
Definition jump_ex : GenState :=
  Eval vm_compute in
    match loop_body y_ex sr_ex graph_ex 1 rs_ex initial_state with
    | inr s => s
    | inl _ => initial_state
    end.

(** A random source unlike [rs_ex]. *)
Definition rs_other : RandomSource := mkRandomSource (fun t => 3 # 4) (fun t => 7%nat).

(** * Rounding *)

Lemma round_half_even_ge (a b : Z) : (a / b <= round_half_even a b)%Z.
Proof.
  unfold round_half_even; cbv zeta.
  destruct (2 * (a mod b) ?= b)%Z; [destruct (Z.even _)|..]; lia.
Qed.

(** Scaling by a power of two below the fraction leaves it at least 1. *)
Lemma scaled_fraction_ge (n d : positive) (shift : Z) :
  (shift <= Z.log2 (Z.pos n) - Z.log2 (Z.pos d) - 1)%Z ->
  (Z.pos d * 2 ^ Z.max 0 shift <= Z.pos n * 2 ^ Z.max 0 (- shift))%Z.
Proof.
  intros Hshift.
  destruct (Z.log2_spec (Z.pos n) ltac:(lia)) as [Hn _].
  destruct (Z.log2_spec (Z.pos d) ltac:(lia)) as [_ Hd].
  pose proof (Z.log2_nonneg (Z.pos n)) as Hln.
  pose proof (Z.log2_nonneg (Z.pos d)) as Hld.
  destruct (Z.le_gt_cases 0 shift) as [Hs|Hs].
  - rewrite (Z.max_r 0 shift), (Z.max_l 0 (- shift)) by lia.
    rewrite Z.pow_0_r, Z.mul_1_r.
    apply (Z.le_trans _ (2 ^ Z.succ (Z.log2 (Z.pos d)) * 2 ^ shift)).
    + apply Z.mul_le_mono_nonneg_r; [apply Z.pow_nonneg|]; lia.
    + rewrite <- Z.pow_add_r by lia.
      apply (Z.le_trans _ (2 ^ Z.log2 (Z.pos n))); [|assumption].
      apply Z.pow_le_mono_r; lia.
  - rewrite (Z.max_l 0 shift), (Z.max_r 0 (- shift)) by lia.
    rewrite Z.pow_0_r, Z.mul_1_r.
    apply (Z.le_trans _ (2 ^ Z.log2 (Z.pos n) * 2 ^ (- shift))).
    + rewrite <- Z.pow_add_r by lia.
      apply (Z.le_trans _ (2 ^ Z.succ (Z.log2 (Z.pos d)))); [lia|].
      apply Z.pow_le_mono_r; lia.
    + apply Z.mul_le_mono_nonneg_r; [apply Z.pow_nonneg|]; lia.
Qed.

Lemma ilog2_frac_bound (n d : positive) :
  (ilog2_frac n d <= Z.log2 (Z.pos n) - Z.log2 (Z.pos d))%Z.
Proof. unfold ilog2_frac; cbv zeta. destruct (_ <? _)%Z; lia. Qed.

(** The nearest binary64 number to a positive fraction is positive. *)
Lemma round_mag_pos (n d : positive) : 0 < round_mag n d.
Proof.
  unfold round_mag; cbv zeta.
  set (shift := (ilog2_frac n d - 52)%Z).
  set (a := (Z.pos n * 2 ^ Z.max 0 (- shift))%Z).
  set (b := (Z.pos d * 2 ^ Z.max 0 shift)%Z).
  assert (Hb : (0 < b)%Z).
  { unfold b. apply Z.mul_pos_pos; [lia|]. apply Z.pow_pos_nonneg; lia. }
  assert (Hab : (b <= a)%Z).
  { apply scaled_fraction_ge. pose proof (ilog2_frac_bound n d) as Hi.
    assert (Hs : shift = (ilog2_frac n d - 52)%Z) by reflexivity. lia. }
  assert (Hm : (1 <= round_half_even a b)%Z).
  { apply (Z.le_trans _ (a / b)); [|apply round_half_even_ge].
    apply Z.div_le_lower_bound; lia. }
  rewrite Qred_correct.
  destruct (Z.leb_spec 0 shift) as [Hs|Hs]; unfold Qlt; simpl.
  - pose proof (Z.pow_pos_nonneg 2 shift ltac:(lia) Hs). nia.
  - lia.
Qed.

Lemma round64_pos (x : Q) : 0 < x -> 0 < round64 x.
Proof.
  destruct x as [[|n|n] d]; unfold Qlt, round64; simpl; try lia.
  intros _. apply (round_mag_pos n d).
Qed.

Lemma round64_nonpos (x : Q) : x <= 0 -> round64 x <= 0.
Proof.
  destruct x as [[|n|n] d]; unfold Qle at 1, round64; simpl; try lia.
  - intros _. apply Qle_refl.
  - intros _. pose proof (round_mag_pos n d) as Hp.
    apply Qlt_le_weak in Hp. apply Qopp_le_compat in Hp. exact Hp.
Qed.

(** The rounding decides the sample counts as binary64 does: 0.63 minutes
    are 833489 samples at 22050 Hz and 944 at 25 Hz, one less than the exact
    products 833490 and 945 give; and a beat whose exact bounds are 24575
    and 24576 has both float bounds at 24576. *)
Lemma round64_sample_counts :
  target_samples 22050 minutes_063 = 833489%Z /\
  target_samples 25 minutes_063 = 944%Z /\
  int_of (minutes_063 * 60 * 22050) = 833490%Z /\
  int_of (minutes_063 * 60 * 25) = 945%Z /\
  start_sample sr_default boundary_beat = 24576%Z /\
  end_sample sr_default boundary_beat = 24576%Z /\
  int_of (start boundary_beat * 22050) = 24575%Z /\
  int_of ((start boundary_beat + duration boundary_beat) * 22050) = 24576%Z.
Proof. vm_compute. repeat split. Qed.

(** * The similarity metric *)

Lemma Qsquare_minus_swap (x y : Q) : (x - y) * (x - y) = (y - x) * (y - x).
Proof.
  destruct x as [xn xd], y as [yn yd].
  unfold Qminus, Qplus, Qopp, Qmult; simpl.
  f_equal; [ring | f_equal; apply Pos.mul_comm].
Qed.

Lemma Qabs_minus_swap (x y : Q) : Qabs (x - y) = Qabs (y - x).
Proof.
  destruct x as [xn xd], y as [yn yd].
  unfold Qminus, Qplus, Qopp, Qabs; simpl.
  f_equal; [| apply Pos.mul_comm].
  rewrite <- Z.abs_opp. f_equal. ring.
Qed.

Lemma sum_squares_vsub_swap (v1 v2 : list Q) :
  sum_squares (vsub v1 v2) = sum_squares (vsub v2 v1).
Proof.
  revert v2. induction v1 as [|x v1 IH]; intros [|z v2]; simpl; try reflexivity.
  rewrite Qsquare_minus_swap. f_equal. apply IH.
Qed.

Lemma euclidean_distance_swap sqrt (v1 v2 : list Q) :
  euclidean_distance sqrt v1 v2 = euclidean_distance sqrt v2 v1.
Proof.
  unfold euclidean_distance, norm. f_equal. apply sum_squares_vsub_swap.
Qed.

(** C8. The distance between two beats does not depend on their order:
    [get_seg_distances a b] and [get_seg_distances b a] are the same number,
    whatever function computes the square root. *)
Theorem get_seg_distances_sym sqrt (a b : Beat) :
  get_seg_distances sqrt a b = get_seg_distances sqrt b a.
Proof.
  unfold get_seg_distances; cbv zeta.
  rewrite (euclidean_distance_swap sqrt (timbre a)),
          (euclidean_distance_swap sqrt (pitch a)),
          (Qabs_minus_swap (loudness_start a)),
          (Qabs_minus_swap (loudness_max a)),
          (Qabs_minus_swap (duration a)),
          (Qabs_minus_swap (confidence a)).
  reflexivity.
Qed.

(** * The graph build *)

Section GraphFacts.

Variable sqrt : Q -> Q.
Variable threshold : Q.

Lemma with_neighbors_id (b : Beat) : with_neighbors (neighbors b) b = b.
Proof. destruct b; reflexivity. Qed.

Lemma append_neighbor_with (e : Neighbor) (b : Beat) :
  append_neighbor e b = with_neighbors (neighbors b ++ [e]) b.
Proof. reflexivity. Qed.

Lemma features_with_neighbors (ns : list Neighbor) (b : Beat) :
  features (with_neighbors ns b) = features b.
Proof. reflexivity. Qed.

Lemma pair_distance_features (b1 b2 b1' b2' : Beat) :
  features b1 = features b1' -> features b2 = features b2' ->
  pair_distance sqrt b1 b2 = pair_distance sqrt b1' b2'.
Proof.
  destruct b1, b2, b1', b2'; unfold features, with_neighbors; simpl.
  intros [= -> -> -> -> -> -> -> ->] [= -> -> -> -> -> -> -> ->].
  reflexivity.
Qed.

Lemma candidate_ext (bs bs' : list Beat) (b1 b1' : Beat) (i j : nat) :
  features <$> bs !! j = features <$> bs' !! j ->
  features b1 = features b1' ->
  candidate sqrt threshold bs b1 i j = candidate sqrt threshold bs' b1' i j.
Proof.
  intros Hj H1. unfold candidate.
  destruct (bs !! j) as [b2|], (bs' !! j) as [b2'|];
    try discriminate; [|reflexivity].
  assert (H2 : features b2 = features b2') by (apply (inj Some); exact Hj).
  rewrite (pair_distance_features b1 b2 b1' b2') by assumption.
  reflexivity.
Qed.

Lemma row_edges_cons (bs : list Beat) (b1 : Beat) (i j : nat) (js : list nat) :
  row_edges sqrt threshold bs b1 i (j :: js) =
  match candidate sqrt threshold bs b1 i j with
  | Some e => e :: row_edges sqrt threshold bs b1 i js
  | None => row_edges sqrt threshold bs b1 i js
  end.
Proof. reflexivity. Qed.

Lemma row_edges_ext (bs bs' : list Beat) (b1 b1' : Beat) (i : nat) (js : list nat) :
  (forall j, features <$> bs !! j = features <$> bs' !! j) ->
  features b1 = features b1' ->
  row_edges sqrt threshold bs b1 i js = row_edges sqrt threshold bs' b1' i js.
Proof.
  intros Hbs H1.
  induction js as [|j js IH]; [reflexivity|].
  rewrite !row_edges_cons, IH.
  rewrite (candidate_ext bs bs' b1 b1' i j) by auto.
  reflexivity.
Qed.

(** One pair: the row grows by the candidate entry, if there is one. *)
Lemma graph_pair_candidate (bs : list Beat) (c : nat) (b1 : Beat) (i j : nat) :
  bs !! i = Some b1 ->
  graph_pair sqrt threshold i j (bs, c) =
    match candidate sqrt threshold bs b1 i j with
    | Some e => (alter (append_neighbor e) i bs, S c)
    | None => (bs, c)
    end.
Proof.
  intros Hi. unfold graph_pair, candidate; simpl. rewrite Hi.
  destruct (bs !! j) as [b2|]; [|reflexivity].
  destruct (i =? j)%nat; [reflexivity|].
  destruct (Qltb _ _); reflexivity.
Qed.

Lemma features_lookup_alter (f : Beat -> Beat) (bs : list Beat) (i j : nat) :
  (forall b, features (f b) = features b) ->
  features <$> alter f i bs !! j = features <$> bs !! j.
Proof.
  intros Hf. rewrite list_lookup_alter.
  destruct (decide (i = j)) as [->|]; [|reflexivity].
  destruct (bs !! j); simpl; [rewrite Hf|]; reflexivity.
Qed.

(** The inner loop for row [i]: only beat [i] changes, and its list grows
    by the row's entries in the order of [js]. *)
Lemma graph_row_fold (i : nat) (js : list nat) :
  forall (bs : list Beat) (c : nat) (b1 : Beat),
    bs !! i = Some b1 ->
    fst (foldl (fun s j => graph_pair sqrt threshold i j s) (bs, c) js) =
    <[i := with_neighbors (neighbors b1 ++ row_edges sqrt threshold bs b1 i js) b1]> bs.
Proof.
  induction js as [|j js IH]; intros bs c b1 Hi.
  - simpl. rewrite app_nil_r, with_neighbors_id.
    symmetry; apply list_insert_id; assumption.
  - cbn [foldl]. rewrite (graph_pair_candidate bs c b1 i j Hi).
    destruct (candidate sqrt threshold bs b1 i j) as [e|] eqn:Hc.
    + assert (Hi' : alter (append_neighbor e) i bs !! i = Some (append_neighbor e b1)).
      { rewrite list_lookup_alter. rewrite decide_True by reflexivity.
        rewrite Hi. reflexivity. }
      rewrite (IH _ _ _ Hi').
      rewrite (row_edges_ext _ bs (append_neighbor e b1) b1).
      * rewrite row_edges_cons, Hc.
        rewrite append_neighbor_with; simpl.
        rewrite <- app_assoc; simpl.
        apply list_eq; intros k.
        destruct (decide (i = k)) as [<-|Hne].
        -- rewrite !list_lookup_insert_eq; [reflexivity| |].
           ++ apply lookup_lt_Some in Hi; assumption.
           ++ rewrite length_alter. apply lookup_lt_Some in Hi; assumption.
        -- rewrite !list_lookup_insert_ne by assumption.
           apply list_lookup_alter_ne; assumption.
      * intros k. apply features_lookup_alter. reflexivity.
      * reflexivity.
    + rewrite row_edges_cons, Hc. apply (IH bs c b1 Hi).
Qed.

Lemma features_row_done beats m k b : features (row_done sqrt threshold beats m k b) = features b.
Proof. unfold row_done. destruct (k <? m)%nat; reflexivity. Qed.

Lemma graph_rows_lookup (beats : list Beat) (m : nat) :
  (m <= length beats)%nat ->
  forall k,
    fst (foldl (graph_row sqrt threshold (length beats)) (beats, 0%nat) (seq 0 m)) !! k
    = row_done sqrt threshold beats m k <$> beats !! k.
Proof.
  induction m as [|m IH]; intros Hm k.
  - simpl. unfold row_done; simpl. destruct (beats !! k); reflexivity.
  - rewrite seq_S, foldl_app; simpl.
    specialize (IH ltac:(lia)).
    destruct (foldl _ _ (seq 0 m)) as [bs c] eqn:Hst; simpl in IH.
    destruct (lookup_lt_is_Some_2 beats m ltac:(lia)) as [b1 Hb1].
    assert (Hbm : bs !! m = Some b1).
    { rewrite IH, Hb1; simpl. unfold row_done.
      rewrite (proj2 (Nat.ltb_ge m m)) by lia. reflexivity. }
    unfold graph_row. rewrite (graph_row_fold m _ bs c b1 Hbm).
    rewrite (row_edges_ext bs beats b1 b1).
    + destruct (decide (m = k)) as [<-|Hne].
      * rewrite list_lookup_insert_eq by (apply lookup_lt_Some in Hbm; assumption).
        rewrite Hb1; simpl. unfold row_done.
        rewrite (proj2 (Nat.ltb_lt m (S m))) by lia. reflexivity.
      * rewrite list_lookup_insert_ne by assumption.
        rewrite IH. destruct (beats !! k); simpl; [|reflexivity].
        unfold row_done.
        destruct (Nat.ltb_spec k m), (Nat.ltb_spec k (S m)); try lia; reflexivity.
    + intros j. rewrite IH. destruct (beats !! j); simpl; [|reflexivity].
      rewrite features_row_done. reflexivity.
    + reflexivity.
Qed.

(** After [generate_graph], beat [k] is the old beat [k] with the entries of
    row [k] appended to its list, and nothing else changed. *)
Lemma generate_graph_lookup (beats : list Beat) (k : nat) :
  snd (generate_graph sqrt beats threshold) !! k =
  (fun b => with_neighbors
     (neighbors b ++ row_edges sqrt threshold beats b k (seq 0 (length beats))) b)
  <$> beats !! k.
Proof.
  unfold generate_graph, graph_loops; simpl.
  rewrite graph_rows_lookup by lia.
  destruct (beats !! k) as [b|] eqn:Hk; simpl; [|reflexivity].
  unfold row_done. apply lookup_lt_Some in Hk.
  rewrite (proj2 (Nat.ltb_lt k (length beats))) by assumption. reflexivity.
Qed.

Lemma Qltb_lt (x y : Q) : Qltb x y = true <-> x < y.
Proof.
  unfold Qltb. rewrite negb_true_iff, <- not_true_iff_false, Qle_bool_iff.
  split; [apply Qnot_le_lt | apply Qlt_not_le].
Qed.

Lemma candidate_Some (bs : list Beat) (b1 : Beat) (i j : nat) (e : Neighbor) :
  candidate sqrt threshold bs b1 i j = Some e <->
  j <> i /\ exists b2, bs !! j = Some b2 /\
    e = mkNeighbor j (pair_distance sqrt b1 b2) /\
    pair_distance sqrt b1 b2 < threshold.
Proof.
  unfold candidate. destruct (bs !! j) as [b2|].
  - destruct (Nat.eqb_spec i j) as [->|Hne].
    + split; [discriminate | intros [[] _]; reflexivity].
    + destruct (Qltb _ _) eqn:Hlt.
      * apply Qltb_lt in Hlt. split.
        -- intros [= <-]. split; [congruence|]. exists b2. auto.
        -- intros (_ & b2' & [= <-] & -> & _). reflexivity.
      * split; [discriminate|].
        intros (_ & b2' & [= <-] & _ & Hlt').
        apply Qltb_lt in Hlt'. congruence.
  - split; [discriminate | intros (_ & b2 & [=] & _)].
Qed.

Lemma candidate_dest (bs : list Beat) (b1 : Beat) (i j : nat) (e : Neighbor) :
  candidate sqrt threshold bs b1 i j = Some e -> dest e = j.
Proof. intros (_ & b2 & _ & -> & _)%candidate_Some. reflexivity. Qed.



Lemma row_edges_elem (bs : list Beat) (b1 : Beat) (i : nat) (e : Neighbor) :
  e ∈ row_edges sqrt threshold bs b1 i (seq 0 (length bs)) <->
  dest e <> i /\ exists b2, bs !! dest e = Some b2 /\
    distance e = pair_distance sqrt b1 b2 /\ distance e < threshold.
Proof.
  unfold row_edges. rewrite list_elem_of_omap. split.
  - intros (j & _ & Hc). pose proof (candidate_dest _ _ _ _ _ Hc) as Hd.
    apply candidate_Some in Hc as (Hne & b2 & Hb2 & -> & Hlt).
    simpl. eauto.
  - intros (Hne & b2 & Hb2 & Hd & Hlt). exists (dest e). split.
    + apply elem_of_seq. apply lookup_lt_Some in Hb2. lia.
    + apply candidate_Some. split; [assumption|]. exists b2.
      split; [assumption|]. split; [|rewrite <- Hd; assumption].
      destruct e as [j d]; simpl in *. congruence.
Qed.

End GraphFacts.

(** * Beats as [analyze_audio] builds them *)

Lemma make_beats_prefix (beat_times : list Q) (sync : list SyncColumn) (m : nat) :
  (m <= length sync)%nat ->
  let bs := foldl (beat_step beat_times sync) [] (seq 0 m) in
  length bs = (m `min` (length beat_times - 1))%nat /\
  (forall i b, bs !! i = Some b -> index b = i /\ neighbors b = []).
Proof.
  induction m as [|m IH]; intros Hm; cbn zeta.
  - simpl. split; [reflexivity | intros i b [=]].
  - rewrite seq_S, foldl_app; cbn [foldl Nat.add].
    destruct (IH ltac:(lia)) as [Hlen Hall]; cbn zeta in Hlen, Hall.
    set (bs := foldl _ _ (seq 0 m)) in *.
    unfold beat_step.
    destruct (Z.leb_spec (Z.of_nat (length beat_times) - 1) (Z.of_nat m)).
    + split; [lia | exact Hall].
    + destruct (lookup_lt_is_Some_2 beat_times m ltac:(lia)) as [t0 ->].
      destruct (lookup_lt_is_Some_2 beat_times (m + 1) ltac:(lia)) as [t1 ->].
      destruct (lookup_lt_is_Some_2 sync m ltac:(lia)) as [c ->].
      split; [rewrite length_app; cbn [length]; lia|].
      intros i b Hi. apply lookup_app_Some in Hi as [Hi|[Hge Hi]].
      * apply Hall; assumption.
      * apply list_lookup_singleton_Some in Hi as [Hi <-]. simpl.
        split; [lia | reflexivity].
Qed.

(** [analyze_audio] numbers the beats by position. *)
Lemma make_beats_well_indexed (beat_times : list Q) (sync : list SyncColumn) :
  well_indexed (make_beats beat_times sync).
Proof.
  intros i b Hi.
  apply (proj2 (make_beats_prefix beat_times sync (length sync) ltac:(lia)) i b Hi).
Qed.

(** [analyze_audio] leaves every [neighbors] list empty. *)
Lemma make_beats_fresh (beat_times : list Q) (sync : list SyncColumn) :
  fresh (make_beats beat_times sync).
Proof.
  apply Forall_lookup. intros i b Hi.
  apply (proj2 (make_beats_prefix beat_times sync (length sync) ltac:(lia)) i b Hi).
Qed.

(** * Properties of the graph *)

(** The edges out of beat [i] in a graph built on beats without
    neighbours. *)
Lemma edge_tested sqrt (t : Q) (beats : list Beat) (i j : nat) (d : Q) (b1 : Beat) :
  fresh beats ->
  beats !! i = Some b1 ->
  edge sqrt beats t i j d <->
  j <> i /\ exists b2, beats !! j = Some b2 /\
                       d = pair_distance sqrt b1 b2 /\ d < t.
Proof.
  intros Hfresh Hi. unfold edge. rewrite generate_graph_lookup, Hi.
  pose proof (Forall_lookup_1 _ _ _ _ Hfresh Hi) as Hnil; simpl in Hnil.
  split.
  - intros (b' & [= <-] & He). simpl in He. rewrite Hnil in He.
    apply (row_edges_elem sqrt t beats b1 i (mkNeighbor j d)) in He. exact He.
  - intros H. eexists. split; [reflexivity|]. simpl. rewrite Hnil.
    apply (row_edges_elem sqrt t beats b1 i (mkNeighbor j d)). exact H.
Qed.

(** What the inner loop does for a pair of distinct positions: it tests the
    distance of the pair against the threshold and, when below, appends it
    to the list of beat [i] and counts the edge. *)
Lemma graph_pair_tested sqrt (t : Q) (bs : list Beat) (c : nat) (i j : nat)
    (b1 b2 : Beat) :
  bs !! i = Some b1 -> bs !! j = Some b2 -> i <> j ->
  graph_pair sqrt t i j (bs, c)
  = if Qltb (pair_distance sqrt b1 b2) t
    then (alter (append_neighbor (mkNeighbor j (pair_distance sqrt b1 b2))) i bs, S c)
    else (bs, c).
Proof.
  intros Hi Hj Hne. unfold graph_pair. cbn [fst snd]. rewrite Hi, Hj.
  rewrite (proj2 (Nat.eqb_neq i j) Hne). reflexivity.
Qed.

(** C3. For beats numbered by position (as [analyze_audio] numbers them) and
    a pair of distinct positions [(i, j)], the graph build adds a penalty of
    exactly 0 or exactly 100 to the raw distance. When [i mod 4 = j mod 4]
    the inner loop tests the raw distance itself against the threshold and
    stores it unchanged; otherwise it tests and stores the raw distance plus
    100. Accordingly, in the graph built on beats without neighbours,
    [(i, j, d)] is an edge exactly when [d] is the raw distance (plus 100
    when the phases differ) and that value is below the threshold. *)
Theorem phase_penalty_exact sqrt (t : Q) (beats : list Beat) (c : nat)
    (i j : nat) (b1 b2 : Beat) :
  well_indexed beats ->
  beats !! i = Some b1 ->
  beats !! j = Some b2 ->
  i <> j ->
  (i mod 4 = j mod 4 ->
     graph_pair sqrt t i j (beats, c)
     = (if Qltb (get_seg_distances sqrt b1 b2) t
        then (alter (append_neighbor
                       (mkNeighbor j (get_seg_distances sqrt b1 b2))) i beats, S c)
        else (beats, c)) /\
     (fresh beats ->
      forall d, edge sqrt beats t i j d <->
                d = get_seg_distances sqrt b1 b2 /\
                get_seg_distances sqrt b1 b2 < t)) /\
  (i mod 4 <> j mod 4 ->
     graph_pair sqrt t i j (beats, c)
     = (if Qltb (get_seg_distances sqrt b1 b2 + 100) t
        then (alter (append_neighbor
                       (mkNeighbor j (get_seg_distances sqrt b1 b2 + 100))) i beats, S c)
        else (beats, c)) /\
     (fresh beats ->
      forall d, edge sqrt beats t i j d <->
                d = get_seg_distances sqrt b1 b2 + 100 /\
                get_seg_distances sqrt b1 b2 + 100 < t)).
Proof.
  intros Hwi Hi Hj Hne.
  assert (Hedge : fresh beats ->
            forall d, edge sqrt beats t i j d <->
                      d = pair_distance sqrt b1 b2 /\ pair_distance sqrt b1 b2 < t).
  { intros Hfresh d. rewrite (edge_tested sqrt t beats i j d b1 Hfresh Hi). split.
    - intros (_ & b2' & Hj' & Hd & Hlt). rewrite Hj in Hj'. injection Hj' as <-.
      split; [assumption | rewrite <- Hd; assumption].
    - intros [Hd Hlt]. split; [congruence|]. exists b2.
      split; [assumption|]. split; [assumption | rewrite Hd; assumption]. }
  pose proof (graph_pair_tested sqrt t beats c i j b1 b2 Hi Hj Hne) as Hpair.
  unfold pair_distance in Hpair, Hedge; cbv zeta in Hpair, Hedge.
  rewrite (Hwi i b1 Hi), (Hwi j b2 Hj) in Hpair, Hedge.
  split; intros Hphase.
  - rewrite (proj2 (Nat.eqb_eq _ _) Hphase) in Hpair, Hedge.
    cbn [negb] in Hpair, Hedge. split; assumption.
  - rewrite (proj2 (Nat.eqb_neq _ _) Hphase) in Hpair, Hedge.
    cbn [negb] in Hpair, Hedge. split; assumption.
Qed.


(** C7. Raising the threshold keeps every edge: an edge [(i, j, d)] of the
    graph built at [t1] is an edge of the graph built at any [t2 >= t1], and
    what is not an edge at [t2] is not an edge at [t1]. *)
Theorem generate_graph_threshold_mono sqrt (beats : list Beat) (t1 t2 : Q)
    (i j : nat) (d : Q) :
  t1 <= t2 ->
  (edge sqrt beats t1 i j d -> edge sqrt beats t2 i j d) /\
  (~ edge sqrt beats t2 i j d -> ~ edge sqrt beats t1 i j d).
Proof.
  intros Hle.
  assert (Hmono : edge sqrt beats t1 i j d -> edge sqrt beats t2 i j d).
  { intros (b' & Hb' & He). unfold edge.
    rewrite generate_graph_lookup in Hb' |- *.
    destruct (beats !! i) as [b|]; [|discriminate].
    injection Hb' as <-. eexists; split; [reflexivity|].
    simpl in *. apply elem_of_app in He as [He|He]; apply elem_of_app;
      [left; assumption | right].
    apply row_edges_elem in He as (Hne & b2 & Hb2 & Hd & Hlt).
    apply row_edges_elem. split; [assumption|]. exists b2.
    split; [assumption|]. split; [assumption|].
    eapply Qlt_le_trans; eassumption. }
  split; [exact Hmono | intros Hn H1; exact (Hn (Hmono H1))].
Qed.

(** * The generation loop *)

Lemma py_slice_same {A : Type} (l : list A) (a : Z) : py_slice l a a = [].
Proof. unfold py_slice; cbn zeta. rewrite Z.sub_diag. reflexivity. Qed.

Lemma py_slice_prefix {A : Type} (l : list A) (n : Z) :
  (0 <= n)%Z -> py_slice l 0 n = take (Z.to_nat n) l.
Proof.
  intros Hn. unfold py_slice, clamp_index; cbn zeta.
  rewrite (proj2 (Z.ltb_ge 0 0)) by lia.
  rewrite (proj2 (Z.ltb_ge n 0)) by lia.
  rewrite (Z.min_l 0) by lia. rewrite Z.sub_0_r.
  change (drop (Z.to_nat 0) l) with l.
  destruct (Z.min_spec n (Z.of_nat (length l))) as [[_ ->]|[Hge ->]]; [reflexivity|].
  rewrite Nat2Z.id, !take_ge by lia. reflexivity.
Qed.

Section GeneratorFacts.

Variable y : list Q.
Variable sr : Z.
Variable beats : list Beat.
Variable duration_minutes : Q.
Variable branch_probability : Q.

Local Abbreviation target := (target_samples sr duration_minutes).
Local Abbreviation body := (loop_body y sr beats branch_probability).
Local Abbreviation loop := (gen_loop y sr beats duration_minutes branch_probability).

(** What one iteration does to the buffer and the counter. *)
Lemma loop_body_emits rs (st st' : GenState) :
  body rs st = inr st' ->
  exists beat,
    beats !! wrap_index beats (current_index st) = Some beat /\
    output_segments st' = output_segments st ++ [beat_segment y sr beat] /\
    generated_samples st' =
      (generated_samples st + Z.of_nat (length (beat_segment y sr beat)))%Z.
Proof.
  unfold loop_body; cbn zeta.
  destruct (beats !! wrap_index beats (current_index st)) as [beat|]; [|discriminate].
  intros H. exists beat. split; [reflexivity|].
  destruct (neighbors beat) as [|nb nbs].
  - injection H as <-. auto.
  - destruct (Qltb _ _).
    + destruct (choice _ _ _); [|discriminate]. injection H as <-. auto.
    + injection H as <-. auto.
Qed.

Lemma loop_body_inv rs (st st' : GenState) :
  body rs st = inr st' -> gen_inv st -> gen_inv st'.
Proof.
  intros (beat & _ & Hout & Hgs)%loop_body_emits Hinv. unfold gen_inv in *.
  rewrite Hgs, Hout, Hinv, concat_app, length_app. simpl.
  rewrite app_nil_r. lia.
Qed.

(** When the loop returns, the counter has reached the target and still
    counts the emitted samples; a loop that is not entered returns its
    initial state. *)
Lemma gen_loop_returned rs (fuel : nat) :
  forall st st',
    loop rs fuel st = Returned st' ->
    gen_inv st ->
    gen_inv st' /\ (target <= generated_samples st')%Z /\
    (loop_guard sr duration_minutes st = false -> st' = st).
Proof.
  induction fuel as [|fuel IH]; intros st st' Hrun Hinv; simpl in Hrun;
    destruct (loop_guard sr duration_minutes st) eqn:Hg.
  - discriminate.
  - injection Hrun as <-. unfold loop_guard in Hg.
    apply Z.ltb_ge in Hg. auto.
  - destruct (body rs st) as [e|st1] eqn:Hb; [discriminate|].
    destruct (IH st1 st' Hrun (loop_body_inv rs st st1 Hb Hinv)) as (H1 & H2 & _).
    split; [assumption|]. split; [assumption | discriminate].
  - injection Hrun as <-. unfold loop_guard in Hg.
    apply Z.ltb_ge in Hg. auto.
Qed.

(** The buffer written on return: the first [target_samples] samples of the
    concatenated segments, and exactly that many. *)
Lemma generate_infinite_track_returned rs (fuel : nat) (log : list Event) (out : list Q) :
  generate_infinite_track y sr beats duration_minutes branch_probability rs fuel
    = (log, Returned out) ->
  (0 < target)%Z /\
  Z.of_nat (length out) = target /\
  exists st, loop rs fuel initial_state = Returned st /\
             out = take (Z.to_nat target) (concat (output_segments st)).
Proof.
  unfold generate_infinite_track.
  destruct (loop rs fuel initial_state) as [st| |] eqn:Hrun; try discriminate.
  destruct (np_concatenate (output_segments st)) as [e|full] eqn:Hcat; [discriminate|].
  intros [= <- <-].
  destruct (gen_loop_returned rs fuel _ _ Hrun) as (Hinv & Hge & Hskip);
    [reflexivity|].
  assert (Hfull : full = concat (output_segments st)).
  { unfold np_concatenate in Hcat. destruct (output_segments st); congruence. }
  assert (Hpos : (0 < target)%Z).
  { destruct (loop_guard sr duration_minutes initial_state) eqn:Hg.
    - unfold loop_guard in Hg. apply Z.ltb_lt in Hg. exact Hg.
    - rewrite (Hskip eq_refl) in Hcat. discriminate. }
  unfold gen_inv in Hinv. subst full.
  split; [assumption|]. unfold trim.
  destruct (Z.ltb_spec target (Z.of_nat (length (concat (output_segments st))))).
  - rewrite py_slice_prefix by lia. rewrite length_take.
    split; [lia|]. exists st. auto.
  - split; [lia|]. exists st. split; [reflexivity|].
    rewrite take_ge by lia. reflexivity.
Qed.

Hypothesis beats_nonempty : beats <> [].
Hypothesis beats_audible : all_audible y sr beats.

Lemma wrap_index_lt (ci : nat) : (wrap_index beats ci < length beats)%nat.
Proof.
  unfold wrap_index. destruct (Nat.leb_spec (length beats) ci); [|assumption].
  destruct beats; [congruence | simpl; lia].
Qed.

(** With audible beats an iteration never fails and emits a sample. *)
Lemma loop_body_progress rs (st : GenState) :
  exists st', body rs st = inr st' /\
              (generated_samples st + 1 <= generated_samples st')%Z.
Proof.
  destruct (lookup_lt_is_Some_2 beats _ (wrap_index_lt (current_index st)))
    as [beat Hbeat].
  pose proof (Forall_lookup_1 _ _ _ _ beats_audible Hbeat) as Hlen; simpl in Hlen.
  unfold loop_body; cbn zeta. rewrite Hbeat.
  destruct (neighbors beat) as [|nb nbs] eqn:Hn.
  - eexists; split; [reflexivity | simpl; lia].
  - destruct (Qltb _ _).
    + unfold choice.
      destruct (lookup_lt_is_Some_2 (nb :: nbs)
                  (choice_at rs (S (draws st)) mod length (nb :: nbs))%nat)
        as [next_beat ->].
      { apply Nat.mod_upper_bound. simpl; lia. }
      eexists; split; [reflexivity | simpl; lia].
    + eexists; split; [reflexivity | simpl; lia].
Qed.

(** The loop needs at most as many iterations as samples are missing. *)
Lemma gen_loop_terminates rs (fuel : nat) :
  forall st,
    (target - generated_samples st <= Z.of_nat fuel)%Z ->
    exists st', loop rs fuel st = Returned st'.
Proof.
  induction fuel as [|fuel IH]; intros st Hfuel; simpl;
    destruct (loop_guard sr duration_minutes st) eqn:Hg;
    try (eexists; reflexivity);
    unfold loop_guard in Hg; apply Z.ltb_lt in Hg; [lia|].
  destruct (loop_body_progress rs st) as (st1 & -> & Hstep).
  apply IH. lia.
Qed.

End GeneratorFacts.

(** * Properties of the generator *)

(** With audible beats and a positive target the run returns a buffer of
    [target_samples] samples, given fuel for [target_samples] iterations. *)
Lemma generate_infinite_track_returns (y : list Q) (sr : Z) (beats : list Beat)
    (T p : Q) (rs : RandomSource) (fuel : nat) :
  beats <> [] -> all_audible y sr beats ->
  (0 < target_samples sr T)%Z ->
  (Z.to_nat (target_samples sr T) <= fuel)%nat ->
  exists out,
    generate_infinite_track y sr beats T p rs fuel
    = ([GeneratingAudio T; Concatenating; Saving; DoneMsg], Returned out) /\
    Z.of_nat (length out) = target_samples sr T.
Proof.
  intros Hne Haud Hpos Hfuel.
  destruct (gen_loop_terminates y sr beats T p Hne Haud rs fuel initial_state)
    as [st Hst].
  { simpl. lia. }
  destruct (gen_loop_returned y sr beats T p rs fuel _ _ Hst)
    as (Hinv & Hge & _); [reflexivity|].
  assert (Hrun : exists out,
             generate_infinite_track y sr beats T p rs fuel
             = ([GeneratingAudio T; Concatenating; Saving; DoneMsg], Returned out)).
  { unfold generate_infinite_track. rewrite Hst. unfold np_concatenate.
    destruct (output_segments st) as [|seg segs] eqn:Hout; [|eauto].
    unfold gen_inv in Hinv. rewrite Hout in Hinv. simpl in Hinv. lia. }
  destruct Hrun as [out Hrun]. exists out. split; [assumption|].
  apply generate_infinite_track_returned in Hrun as (_ & Hlen & _).
  exact Hlen.
Qed.

(** C1 (as amended). Whenever [generate_infinite_track] returns, the buffer
    it writes has exactly [target_samples] samples, that is
    [int(duration_minutes * 60 * sr)] as the program computes it (each
    product rounded to binary64, the result truncated toward zero), and is
    the beginning of the concatenated segments, so nothing is padded; and it
    does return, within [target_samples] iterations, when there is at least
    one beat, every beat covers at least one sample and the target is
    positive. *)
Theorem output_length_exact (y : list Q) (sr : Z) (beats : list Beat)
    (T p : Q) (rs : RandomSource) :
  (forall fuel log out,
      generate_infinite_track y sr beats T p rs fuel = (log, Returned out) ->
      Z.of_nat (length out) = target_samples sr T /\
      exists st, gen_loop y sr beats T p rs fuel initial_state = Returned st /\
                 out = take (Z.to_nat (target_samples sr T))
                            (concat (output_segments st))) /\
  (beats <> [] -> all_audible y sr beats ->
   (0 < target_samples sr T)%Z ->
   forall fuel, (Z.to_nat (target_samples sr T) <= fuel)%nat ->
     exists out,
       generate_infinite_track y sr beats T p rs fuel
       = ([GeneratingAudio T; Concatenating; Saving; DoneMsg], Returned out) /\
       Z.of_nat (length out) = target_samples sr T).
Proof.
  split.
  - intros fuel log out Hrun.
    apply generate_infinite_track_returned in Hrun as (_ & Hlen & Hst).
    split; assumption.
  - intros Hne Haud Hpos fuel Hfuel.
    apply generate_infinite_track_returns; assumption.
Qed.

(** C2 (as amended). When there is at least one beat and every beat covers
    at least one sample of the buffer (its slice, between the two bounds the
    program computes in float arithmetic, is not empty), the generation loop
    terminates, for every branch probability, target duration and random
    source, within [target_samples] iterations. *)
Theorem generation_terminates (y : list Q) (sr : Z) (beats : list Beat)
    (T p : Q) (rs : RandomSource) (fuel : nat) :
  beats <> [] ->
  all_audible y sr beats ->
  (Z.to_nat (target_samples sr T) <= fuel)%nat ->
  exists st, gen_loop y sr beats T p rs fuel initial_state = Returned st /\
             (target_samples sr T <= generated_samples st)%Z.
Proof.
  intros Hne Haud Hfuel.
  destruct (gen_loop_terminates y sr beats T p Hne Haud rs fuel initial_state)
    as [st Hst].
  { simpl. lia. }
  exists st. split; [assumption|].
  apply (gen_loop_returned y sr beats T p rs fuel _ _ Hst). reflexivity.
Qed.

(** C5 (as amended). With an empty beat list nothing is checked before the
    loop. When the target is positive the loop is entered and its first
    iteration fails on the subscript [beats[0]] (IndexError); when it is not,
    the loop is skipped and concatenating no segments fails (ValueError). *)
Theorem empty_beats_fail_late (y : list Q) (sr : Z) (T p : Q)
    (rs : RandomSource) (fuel : nat) :
  ((0 < target_samples sr T)%Z ->
     loop_guard sr T initial_state = true /\
     loop_body y sr [] p rs initial_state = inl IndexError /\
     generate_infinite_track y sr [] T p rs (S fuel)
     = ([GeneratingAudio T], Raised IndexError)) /\
  ((target_samples sr T <= 0)%Z ->
     loop_guard sr T initial_state = false /\
     generate_infinite_track y sr [] T p rs fuel
     = ([GeneratingAudio T; Concatenating], Raised ValueError)).
Proof.
  split; intros Ht.
  - assert (Hg : loop_guard sr T initial_state = true).
    { unfold loop_guard; simpl. apply Z.ltb_lt. assumption. }
    split; [assumption|]. split; [reflexivity|].
    unfold generate_infinite_track; simpl. rewrite Hg. reflexivity.
  - assert (Hg : loop_guard sr T initial_state = false).
    { unfold loop_guard; simpl. apply Z.ltb_ge. assumption. }
    split; [assumption|].
    unfold generate_infinite_track.
    destruct fuel; simpl; rewrite Hg; reflexivity.
Qed.

(** A target that is not positive: the loop is skipped, whatever the beats,
    and [np.concatenate] is applied to an empty list. *)
Lemma nonpositive_target_value_error (y : list Q) (sr : Z) (beats : list Beat)
    (T p : Q) (rs : RandomSource) (fuel : nat) :
  (target_samples sr T <= 0)%Z ->
  generate_infinite_track y sr beats T p rs fuel
  = ([GeneratingAudio T; Concatenating], Raised ValueError).
Proof.
  intros Ht.
  assert (Hg : loop_guard sr T initial_state = false).
  { unfold loop_guard; simpl. apply Z.ltb_ge. assumption. }
  unfold generate_infinite_track.
  destruct fuel; simpl; rewrite Hg; reflexivity.
Qed.

Lemma int_of_nonpos (x : Q) : x <= 0 -> (int_of x <= 0)%Z.
Proof.
  unfold Qle, int_of; simpl. intros Hx.
  apply Z.quot_le_upper_bound; lia.
Qed.

Lemma target_samples_nonpos (sr : Z) (T : Q) :
  T <= 0 -> (0 <= sr)%Z -> (target_samples sr T <= 0)%Z.
Proof.
  intros HT Hsr. apply int_of_nonpos.
  assert (H60 : fmul T 60 <= 0).
  { apply round64_nonpos. rewrite <- (Qmult_0_l 60).
    apply Qmult_le_compat_r; [assumption | discriminate]. }
  apply round64_nonpos.
  rewrite <- (Qmult_0_l (inject_Z sr)).
  apply Qmult_le_compat_r; [assumption|].
  unfold Qle; simpl. lia.
Qed.

Lemma generate_graph_audible sqrt (y : list Q) (sr : Z) (beats : list Beat) (t : Q) :
  all_audible y sr beats ->
  all_audible y sr (snd (generate_graph sqrt beats t)).
Proof.
  intros Haud. apply Forall_lookup. intros i b' Hi.
  rewrite generate_graph_lookup in Hi.
  destruct (beats !! i) as [b|] eqn:Hb; [|discriminate].
  injection Hi as <-.
  exact (Forall_lookup_1 _ _ _ _ Haud Hb).
Qed.

Lemma generate_graph_nonempty sqrt (beats : list Beat) (t : Q) :
  beats <> [] -> snd (generate_graph sqrt beats t) <> [].
Proof.
  intros Hne Hnil.
  pose proof (generate_graph_lookup sqrt t beats 0) as H0.
  rewrite Hnil in H0. destruct beats; [congruence | discriminate].
Qed.

(** C6 (as amended). [main] checks no parameter. Whatever the threshold,
    the branch probability and the target duration, the graph build runs
    first and to its end. A target duration that is not positive shows only
    afterwards, when concatenating no segments fails (ValueError); a negative
    threshold or a probability outside [0,1] is accepted, and the run
    returns a buffer whenever the beats are audible and the target positive. *)
Theorem main_validates_nothing sqrt (y : list Q) (sr : Z) (beats : list Beat)
    (duration threshold prob : Q) (rs : RandomSource) (fuel : nat) :
  (exists n rest,
      fst (main sqrt y sr beats duration threshold prob rs fuel)
      = GeneratingGraph threshold :: CreatedEdges n
          :: GeneratingAudio duration :: rest) /\
  (duration <= 0 -> (0 <= sr)%Z ->
     exists n,
       main sqrt y sr beats duration threshold prob rs fuel
       = ([GeneratingGraph threshold; CreatedEdges n;
           GeneratingAudio duration; Concatenating], Raised ValueError)) /\
  (beats <> [] -> all_audible y sr beats ->
   (0 < target_samples sr duration)%Z ->
   (Z.to_nat (target_samples sr duration) <= fuel)%nat ->
     exists n out,
       main sqrt y sr beats duration threshold prob rs fuel
       = ([GeneratingGraph threshold; CreatedEdges n; GeneratingAudio duration;
           Concatenating; Saving; DoneMsg], Returned out)).
Proof.
  split; [|split].
  - unfold main, generate_infinite_track; simpl.
    destruct (gen_loop _ _ _ _ _ _ _ _) as [st| |];
      [destruct (np_concatenate _)|..]; eauto.
  - intros HT Hsr. unfold main.
    rewrite nonpositive_target_value_error
      by (apply target_samples_nonpos; assumption).
    simpl. eauto.
  - intros Hne Haud Hpos Hfuel. unfold main.
    destruct (generate_infinite_track_returns y sr
                (snd (generate_graph sqrt beats threshold)) duration prob rs fuel
                (generate_graph_nonempty sqrt beats threshold Hne)
                (generate_graph_audible sqrt y sr beats threshold Haud)
                Hpos Hfuel) as (out & -> & _).
    simpl. eauto.
Qed.

(** * Beats shorter than a sample *)

(** C10. There is a beat of positive duration and a sample rate at which
    [int(start * sr)] equals [int((start + duration) * sr)]; and whenever the
    two bounds are equal for the beat an iteration plays, that iteration
    appends an empty segment and leaves [generated_samples] as it was. *)
Theorem positive_duration_zero_samples :
  (exists (b : Beat) (sr : Z),
      0 < duration b /\ (0 < sr)%Z /\ start_sample sr b = end_sample sr b) /\
  (forall (y : list Q) (sr : Z) (beats : list Beat) (p : Q) (rs : RandomSource)
          (st st' : GenState) (b : Beat),
      beats !! wrap_index beats (current_index st) = Some b ->
      start_sample sr b = end_sample sr b ->
      loop_body y sr beats p rs st = inr st' ->
      output_segments st' = output_segments st ++ [[]] /\
      generated_samples st' = generated_samples st).
Proof.
  split.
  - exists short_beat, sr_default. split; [reflexivity|]. split; reflexivity.
  - intros y sr beats p rs st st' b Hb Heq Hbody.
    apply loop_body_emits in Hbody as (b' & Hb' & Hout & Hgs).
    rewrite Hb in Hb'. injection Hb' as <-.
    unfold beat_segment in Hout, Hgs. rewrite Heq, py_slice_same in Hout, Hgs.
    simpl in Hgs. split; [assumption | lia].
Qed.

(** * Worked examples *)

(** The sample beats are those [analyze_audio] builds, and the sample graph
    is the one [generate_graph] builds on them. *)
Lemma beats_ex_built : beats_ex = make_beats beat_times_ex sync_ex.
Proof. vm_compute. reflexivity. Qed.

Lemma graph_ex_built : graph_ex = snd (generate_graph sqrt_milli beats_ex 60).
Proof. vm_compute. reflexivity. Qed.

(** The sample beats are numbered by position and have no neighbours yet. *)
Lemma beats_ex_well_indexed : well_indexed beats_ex.
Proof.
  intros i b. do 5 (destruct i as [|i]; [intros [= <-]; reflexivity|]).
  intros [=].
Defined.

Lemma beats_ex_fresh : fresh beats_ex.
Proof. repeat constructor. Defined.

Lemma graph_ex_audible : all_audible y_ex sr_ex graph_ex.
Proof. repeat (constructor; [vm_compute; lia|]). constructor. Defined.

Lemma graph_ex_nonempty : graph_ex <> [].
Proof. discriminate. Defined.

Lemma phase_penalty_exact_witness :
  well_indexed beats_ex /\ fresh beats_ex /\
  beats_ex !! 0%nat = Some beat0_ex /\
  beats_ex !! 4%nat = Some beat4_ex /\
  beats_ex !! 1%nat = Some beat1_ex /\
  get_seg_distances sqrt_milli beat0_ex beat4_ex = raw04_ex /\
  get_seg_distances sqrt_milli beat0_ex beat1_ex = raw01_ex /\
  raw04_ex < 60 /\ raw01_ex + 100 < 150 /\
  (forall d, edge sqrt_milli beats_ex 60 0 4 d <->
             d = get_seg_distances sqrt_milli beat0_ex beat4_ex /\
             get_seg_distances sqrt_milli beat0_ex beat4_ex < 60) /\
  (forall d, edge sqrt_milli beats_ex 150 0 1 d <->
             d = get_seg_distances sqrt_milli beat0_ex beat1_ex + 100 /\
             get_seg_distances sqrt_milli beat0_ex beat1_ex + 100 < 150).
Proof.
  assert (H0 : beats_ex !! 0%nat = Some beat0_ex) by reflexivity.
  assert (H4 : beats_ex !! 4%nat = Some beat4_ex) by reflexivity.
  assert (H1 : beats_ex !! 1%nat = Some beat1_ex) by reflexivity.
  assert (N04 : 0%nat <> 4%nat) by discriminate.
  assert (N01 : 0%nat <> 1%nat) by discriminate.
  assert (P04 : (0 mod 4 = 4 mod 4)%nat) by reflexivity.
  assert (P01 : (0 mod 4 <> 1 mod 4)%nat) by discriminate.
  split; [exact beats_ex_well_indexed|]. split; [exact beats_ex_fresh|].
  split; [exact H0|]. split; [exact H4|]. split; [exact H1|].
  split; [vm_compute; reflexivity|]. split; [vm_compute; reflexivity|].
  split; [vm_compute; reflexivity|]. split; [vm_compute; reflexivity|]. split.
  - exact (proj2 (proj1 (phase_penalty_exact sqrt_milli 60 beats_ex 0 0 4
                           beat0_ex beat4_ex beats_ex_well_indexed H0 H4 N04) P04)
             beats_ex_fresh).
  - exact (proj2 (proj2 (phase_penalty_exact sqrt_milli 150 beats_ex 0 0 1
                           beat0_ex beat1_ex beats_ex_well_indexed H0 H1 N01) P01)
             beats_ex_fresh).
Defined.


Lemma generate_graph_threshold_mono_witness :
  60 <= 150 /\
  edge sqrt_milli beats_ex 60 0 4 d04_ex /\
  edge sqrt_milli beats_ex 150 0 4 d04_ex.
Proof.
  assert (Hle : 60 <= 150) by discriminate.
  assert (He : edge sqrt_milli beats_ex 60 0 4 d04_ex).
  { eexists. split; [vm_compute; reflexivity|]. vm_compute. constructor. }
  split; [exact Hle|]. split; [exact He|].
  exact (proj1 (generate_graph_threshold_mono sqrt_milli beats_ex 60 150 0 4 d04_ex Hle) He).
Defined.

(** A target of 5.625 samples: the run writes 5 samples, where rounding and
    rounding up both give 6. *)
Lemma output_length_truncated_not_rounded :
  exists out,
    generate_infinite_track y_ex sr_ex graph_ex (3 # 256) 0 rs_ex 10
    = ([GeneratingAudio (3 # 256); Concatenating; Saving; DoneMsg], Returned out) /\
    length out = 5%nat /\
    py_round ((3 # 256) * 60 * inject_Z sr_ex) = 6%Z /\
    Qceiling ((3 # 256) * 60 * inject_Z sr_ex) = 6%Z /\
    Z.of_nat (length out) <> py_round ((3 # 256) * 60 * inject_Z sr_ex) /\
    Z.of_nat (length out) <> Qceiling ((3 # 256) * 60 * inject_Z sr_ex).
Proof.
  eexists. split; [vm_compute; reflexivity|].
  repeat split; vm_compute; congruence.
Qed.

Lemma output_length_exact_witness :
  graph_ex <> [] /\ all_audible y_ex sr_ex graph_ex /\
  (0 < target_samples sr_ex (3 # 256))%Z /\
  (Z.to_nat (target_samples sr_ex (3 # 256)) <= 5)%nat /\
  exists out,
    generate_infinite_track y_ex sr_ex graph_ex (3 # 256) (1 # 2) rs_ex 5
    = ([GeneratingAudio (3 # 256); Concatenating; Saving; DoneMsg], Returned out) /\
    Z.of_nat (length out) = target_samples sr_ex (3 # 256).
Proof.
  assert (Hpos : (0 < target_samples sr_ex (3 # 256))%Z) by reflexivity.
  assert (Hfuel : (Z.to_nat (target_samples sr_ex (3 # 256)) <= 5)%nat)
    by (vm_compute; lia).
  split; [exact graph_ex_nonempty|]. split; [exact graph_ex_audible|].
  split; [exact Hpos|]. split; [exact Hfuel|].
  exact (proj2 (output_length_exact y_ex sr_ex graph_ex (3 # 256) (1 # 2) rs_ex)
           graph_ex_nonempty graph_ex_audible Hpos 5%nat Hfuel).
Defined.

(** A beat of positive duration that covers no sample: the counter stays at
    zero and the loop goes on for ever. *)
Lemma short_beat_segment_empty : beat_segment y_ex sr_default short_beat = [].
Proof. vm_compute. reflexivity. Qed.

Lemma short_beat_target : target_samples sr_default 1 = 1323000%Z.
Proof. vm_compute. reflexivity. Qed.

Lemma short_beat_loop_stuck (rs : RandomSource) (fuel : nat) :
  forall st, generated_samples st = 0%Z ->
    gen_loop y_ex sr_default [short_beat] 1 (1 # 2) rs fuel st = OutOfFuel.
Proof.
  induction fuel as [|fuel IH]; intros st Hgs; cbn [gen_loop];
    unfold loop_guard; rewrite Hgs, short_beat_target;
    change (0 <? 1323000)%Z with true; cbn iota; [reflexivity|].
  unfold loop_body; cbv zeta.
  assert (Hw : wrap_index [short_beat] (current_index st) = 0%nat).
  { unfold wrap_index. destruct (current_index st); reflexivity. }
  rewrite Hw. change ([short_beat] !! 0%nat) with (Some short_beat).
  cbv iota. rewrite short_beat_segment_empty.
  change (neighbors short_beat) with (@nil Neighbor). cbv iota.
  apply IH. cbn [generated_samples length]. rewrite Hgs. reflexivity.
Qed.

Lemma positive_duration_beat_never_terminates :
  [short_beat] <> [] /\
  0 < duration short_beat /\
  (0 <= 1 # 2 /\ 1 # 2 <= 1) /\
  0 < 1 /\
  ~ exists fuel st,
      gen_loop y_ex sr_default [short_beat] 1 (1 # 2) rs_ex fuel initial_state
      = Returned st.
Proof.
  split; [discriminate|]. split; [reflexivity|].
  split; [split; discriminate|]. split; [reflexivity|].
  intros (fuel & st & Hrun).
  rewrite short_beat_loop_stuck in Hrun by reflexivity. discriminate.
Qed.

Lemma generation_terminates_witness :
  graph_ex <> [] /\ all_audible y_ex sr_ex graph_ex /\
  (Z.to_nat (target_samples sr_ex (1 # 16)) <= 30)%nat /\
  exists st,
    gen_loop y_ex sr_ex graph_ex (1 # 16) 1 rs_ex 30 initial_state = Returned st /\
    (target_samples sr_ex (1 # 16) <= generated_samples st)%Z.
Proof.
  assert (Hfuel : (Z.to_nat (target_samples sr_ex (1 # 16)) <= 30)%nat)
    by (vm_compute; lia).
  split; [exact graph_ex_nonempty|]. split; [exact graph_ex_audible|].
  split; [exact Hfuel|].
  exact (generation_terminates y_ex sr_ex graph_ex (1 # 16) 1 rs_ex 30
           graph_ex_nonempty graph_ex_audible Hfuel).
Defined.

(** No beats, target of 480 samples: the loop is entered and the subscript
    [beats[0]] fails inside it. *)
Lemma empty_beats_index_error_in_loop :
  loop_guard sr_ex 1 initial_state = true /\
  loop_body y_ex sr_ex [] (1 # 2) rs_ex initial_state = inl IndexError /\
  generate_infinite_track y_ex sr_ex [] 1 (1 # 2) rs_ex 1
  = ([GeneratingAudio 1], Raised IndexError).
Proof. repeat split. Qed.

Lemma empty_beats_fail_late_witness :
  (0 < target_samples sr_ex 1)%Z /\
  (target_samples sr_ex 0 <= 0)%Z /\
  generate_infinite_track y_ex sr_ex [] 1 (1 # 2) rs_ex 1
  = ([GeneratingAudio 1], Raised IndexError) /\
  generate_infinite_track y_ex sr_ex [] 0 (1 # 2) rs_ex 1
  = ([GeneratingAudio 0; Concatenating], Raised ValueError).
Proof.
  assert (Hpos : (0 < target_samples sr_ex 1)%Z) by reflexivity.
  assert (Hnon : (target_samples sr_ex 0 <= 0)%Z) by (vm_compute; congruence).
  split; [exact Hpos|]. split; [exact Hnon|]. split.
  - exact (proj2 (proj2 (proj1
             (empty_beats_fail_late y_ex sr_ex 1 (1 # 2) rs_ex 0) Hpos))).
  - exact (proj2 (proj2
             (empty_beats_fail_late y_ex sr_ex 0 (1 # 2) rs_ex 1) Hnon)).
Defined.

(** A negative threshold with a probability of 2 is run to the end; a
    target duration of zero fails only after the graph is built. *)
Lemma invalid_configuration_not_rejected :
  (-5 < 0 /\ ~ 2 <= 1 /\ (0 : Q) <= 0) /\
  (exists out,
     main sqrt_milli y_ex sr_ex beats_ex (1 # 16) (-5) 2 rs_ex 30
     = ([GeneratingGraph (-5); CreatedEdges 0; GeneratingAudio (1 # 16);
         Concatenating; Saving; DoneMsg], Returned out)) /\
  main sqrt_milli y_ex sr_ex beats_ex 0 60 (1 # 2) rs_ex 30
  = ([GeneratingGraph 60; CreatedEdges 2; GeneratingAudio 0; Concatenating],
     Raised ValueError).
Proof.
  split.
  { split; [reflexivity|]. split; [intros H; apply H; reflexivity | discriminate]. }
  split; [eexists|]; vm_compute; reflexivity.
Qed.

Lemma main_validates_nothing_witness :
  (0 : Q) <= 0 /\ (0 <= sr_ex)%Z /\
  (exists n,
     main sqrt_milli y_ex sr_ex beats_ex 0 60 (1 # 2) rs_ex 30
     = ([GeneratingGraph 60; CreatedEdges n; GeneratingAudio 0; Concatenating],
        Raised ValueError)).
Proof.
  assert (HT : (0 : Q) <= 0) by discriminate.
  assert (Hsr : (0 <= sr_ex)%Z) by discriminate.
  split; [exact HT|]. split; [exact Hsr|].
  exact (proj1 (proj2 (main_validates_nothing sqrt_milli y_ex sr_ex beats_ex
                         0 60 (1 # 2) rs_ex 30)) HT Hsr).
Defined.

Lemma positive_duration_zero_samples_witness :
  [short_beat] !! wrap_index [short_beat] (current_index initial_state)
    = Some short_beat /\
  start_sample sr_default short_beat = end_sample sr_default short_beat /\
  loop_body y_ex sr_default [short_beat] (1 # 2) rs_ex initial_state
    = inr (mkGenState 1 0 [[]] 0) /\
  output_segments (mkGenState 1 0 [[]] 0) = output_segments initial_state ++ [[]] /\
  generated_samples (mkGenState 1 0 [[]] 0) = generated_samples initial_state.
Proof.
  split; [reflexivity|]. split; [reflexivity|]. split; [reflexivity|].
  exact (proj2 positive_duration_zero_samples y_ex sr_default [short_beat] (1 # 2)
           rs_ex initial_state (mkGenState 1 0 [[]] 0) short_beat
           eq_refl eq_refl eq_refl).
Defined.

(** * Further properties: beat construction *)

Lemma beat_at_Some (beat_times : list Q) (sync : list SyncColumn) (i : nat) (b : Beat) :
  beat_at beat_times sync i = Some b <->
  exists t0 t1 c,
    beat_times !! i = Some t0 /\ beat_times !! (i + 1)%nat = Some t1 /\
    sync !! i = Some c /\
    b = mkBeat i t0 (fsub t1 t0) (mfcc_col c) (chroma_col c)
               (loudness_col c) (loudness_col c) 1 [].
Proof.
  unfold beat_at. split.
  - destruct (beat_times !! i) as [t0|]; [|discriminate].
    destruct (beat_times !! (i + 1)%nat) as [t1|]; [|discriminate].
    destruct (sync !! i) as [c|]; [|discriminate].
    intros [= <-]. exists t0, t1, c. auto.
  - intros (t0 & t1 & c & -> & -> & -> & ->). reflexivity.
Qed.

(** The beats after [m] rounds of the loop: those of the rounds that built
    one, in order. *)
Lemma make_beats_fold (beat_times : list Q) (sync : list SyncColumn) (m : nat) :
  (m <= length sync)%nat ->
  foldl (beat_step beat_times sync) [] (seq 0 m)
  = omap (beat_at beat_times sync) (seq 0 m).
Proof.
  induction m as [|m IH]; intros Hm; [reflexivity|].
  rewrite seq_S, foldl_app, omap_app, IH by lia. cbn [foldl Nat.add].
  unfold beat_step, beat_at.
  change (omap ?f [m]) with (match f m with Some b => [b] | None => [] end).
  destruct (Z.leb_spec (Z.of_nat (length beat_times) - 1) (Z.of_nat m)).
  - rewrite (lookup_ge_None_2 beat_times (m + 1)) by lia.
    destruct (beat_times !! m); rewrite app_nil_r; reflexivity.
  - destruct (lookup_lt_is_Some_2 beat_times m ltac:(lia)) as [t0 ->].
    destruct (lookup_lt_is_Some_2 beat_times (m + 1) ltac:(lia)) as [t1 ->].
    destruct (lookup_lt_is_Some_2 sync m ltac:(lia)) as [c ->].
    reflexivity.
Qed.

Lemma make_beats_lookup (beat_times : list Q) (sync : list SyncColumn) (i : nat) (b : Beat) :
  make_beats beat_times sync !! i = Some b <->
  (i < length sync)%nat /\ beat_at beat_times sync i = Some b.
Proof.
  unfold make_beats.
  pose proof (make_beats_prefix beat_times sync (length sync) ltac:(lia)) as [Hlen Hall].
  cbn zeta in Hlen, Hall. split.
  - intros Hi. destruct (Hall i b Hi) as [Hidx _].
    pose proof (lookup_lt_Some _ _ _ Hi) as Hlt. rewrite Hlen in Hlt.
    split; [lia|].
    rewrite make_beats_fold in Hi by lia.
    apply list_elem_of_lookup_2, list_elem_of_omap in Hi as (j & _ & Hj).
    pose proof Hj as Hj'. apply beat_at_Some in Hj' as (t0 & t1 & c & _ & _ & _ & ->).
    simpl in Hidx. subst j. exact Hj.
  - intros [Hlt Hb].
    pose proof Hb as Hb'. apply beat_at_Some in Hb' as (t0 & t1 & c & H0 & H1 & _ & Heq).
    apply lookup_lt_Some in H1.
    destruct (lookup_lt_is_Some_2 (foldl (beat_step beat_times sync) [] (seq 0 (length sync))) i)
      as [b' Hb']; [rewrite Hlen; lia|].
    rewrite Hb'. f_equal.
    destruct (Hall i b' Hb') as [Hidx _].
    rewrite make_beats_fold in Hb' by lia.
    apply list_elem_of_lookup_2, list_elem_of_omap in Hb' as (j & _ & Hj).
    pose proof Hj as Hj'. apply beat_at_Some in Hj' as (t0' & t1' & c' & _ & _ & _ & Heq').
    rewrite Heq' in Hidx. simpl in Hidx. subst j. congruence.
Qed.

(** X1. [analyze_audio] returns one beat per feature column that has a next
    beat marker: as many beats as there are columns, but never more than the
    number of markers minus one; with fewer than two markers it returns no
    beat at all. *)
Theorem make_beats_length (beat_times : list Q) (sync : list SyncColumn) :
  length (make_beats beat_times sync)
  = (length sync `min` (length beat_times - 1))%nat.
Proof.
  exact (proj1 (make_beats_prefix beat_times sync (length sync) ltac:(lia))).
Qed.

(** X2. The beat at position [i] of the list [analyze_audio] returns is
    built from marker [i], marker [i + 1] and feature column [i]: it starts
    at marker [i], its duration is the float difference of marker [i + 1]
    and marker [i], it carries the column's features
    with the same loudness twice, confidence 1, its own position as [index]
    and no neighbours; and every such triple gives the beat at position [i]. *)
Theorem make_beats_entry (beat_times : list Q) (sync : list SyncColumn) (i : nat) (b : Beat) :
  make_beats beat_times sync !! i = Some b <->
  exists t0 t1 c,
    beat_times !! i = Some t0 /\ beat_times !! (i + 1)%nat = Some t1 /\
    sync !! i = Some c /\
    b = mkBeat i t0 (fsub t1 t0) (mfcc_col c) (chroma_col c)
               (loudness_col c) (loudness_col c) 1 [].
Proof.
  rewrite make_beats_lookup, beat_at_Some. split.
  - intros [_ H]. exact H.
  - intros (t0 & t1 & c & H0 & H1 & Hc & Hb). split; [|eauto 8].
    apply lookup_lt_Some in Hc. exact Hc.
Qed.

(** X4. When the beat markers are strictly increasing, every beat has a
    positive duration. *)
Theorem make_beats_positive_duration (beat_times : list Q) (sync : list SyncColumn) :
  increasing beat_times ->
  Forall (fun b => 0 < duration b) (make_beats beat_times sync).
Proof.
  intros Hinc. apply Forall_lookup. intros i b [_ Hb]%make_beats_lookup.
  apply beat_at_Some in Hb as (t0 & t1 & c & H0 & H1 & _ & ->).
  cbn [duration]. apply round64_pos.
  pose proof (Hinc i t0 t1 H0 H1) as Hlt.
  apply (Qplus_lt_l _ _ t0). ring_simplify. exact Hlt.
Qed.

(** * Further properties: the graph build *)

Section GraphMore.

Variable sqrt : Q -> Q.

Lemma get_seg_distances_swap (a b : Beat) :
  get_seg_distances sqrt a b = get_seg_distances sqrt b a.
Proof.
  unfold get_seg_distances; cbv zeta.
  rewrite (euclidean_distance_swap sqrt (timbre a)),
          (euclidean_distance_swap sqrt (pitch a)),
          (Qabs_minus_swap (loudness_start a)),
          (Qabs_minus_swap (loudness_max a)),
          (Qabs_minus_swap (duration a)),
          (Qabs_minus_swap (confidence a)).
  reflexivity.
Qed.

(** The tested distance, phase penalty included, is the same in both
    directions. *)
Lemma pair_distance_swap (a b : Beat) :
  pair_distance sqrt a b = pair_distance sqrt b a.
Proof.
  unfold pair_distance; cbv zeta.
  rewrite (get_seg_distances_swap a b), (Nat.eqb_sym (index a mod 4)).
  reflexivity.
Qed.

Lemma foldl_invariant {A B : Type} (P : A -> Prop) (f : A -> B -> A) (l : list B) :
  (forall a b, P a -> P (f a b)) -> forall a, P a -> P (foldl f a l).
Proof.
  intros Hf. induction l as [|b l IH]; intros a Ha; simpl; [assumption|].
  apply IH, Hf, Ha.
Qed.

Lemma total_neighbors_cons (b : Beat) (bs : list Beat) :
  total_neighbors (b :: bs) = (length (neighbors b) + total_neighbors bs)%nat.
Proof. reflexivity. Qed.

Lemma total_neighbors_append (e : Neighbor) (bs : list Beat) :
  forall i b, bs !! i = Some b ->
    total_neighbors (alter (append_neighbor e) i bs) = S (total_neighbors bs).
Proof.
  induction bs as [|b0 bs IH]; intros i b Hi; [discriminate|].
  destruct i as [|i].
  - change (alter (append_neighbor e) 0%nat (b0 :: bs))
      with (append_neighbor e b0 :: bs).
    rewrite !total_neighbors_cons. simpl. rewrite length_app. simpl. lia.
  - change (alter (append_neighbor e) (S i) (b0 :: bs))
      with (b0 :: alter (append_neighbor e) i bs).
    rewrite !total_neighbors_cons, (IH i b Hi). lia.
Qed.

(** Each pair adds as much to [edge_count] as to the lists. *)
Lemma graph_pair_count (threshold : Q) (i j : nat) (st : GraphState) :
  (snd (graph_pair sqrt threshold i j st) + total_neighbors (fst st)
   = snd st + total_neighbors (fst (graph_pair sqrt threshold i j st)))%nat.
Proof.
  unfold graph_pair.
  destruct (fst st !! i) as [b1|] eqn:Hi; [|reflexivity].
  destruct (fst st !! j) as [b2|]; [|reflexivity].
  destruct (i =? j)%nat; [reflexivity|]. cbv zeta.
  destruct (Qltb _ _); [|reflexivity]. simpl.
  rewrite (total_neighbors_append _ _ i b1 Hi). lia.
Qed.

Lemma graph_loops_count (beats : list Beat) (threshold : Q) :
  (snd (graph_loops sqrt beats threshold) + total_neighbors beats
   = total_neighbors (fst (graph_loops sqrt beats threshold)))%nat.
Proof.
  unfold graph_loops.
  apply (foldl_invariant
           (fun st : GraphState =>
              (snd st + total_neighbors beats = total_neighbors (fst st))%nat));
    [|reflexivity].
  intros st i Hst. unfold graph_row.
  apply (foldl_invariant
           (fun st : GraphState =>
              (snd st + total_neighbors beats = total_neighbors (fst st))%nat));
    [|assumption].
  intros st' j Hst'. pose proof (graph_pair_count threshold i j st'). lia.
Qed.

Lemma generate_graph_length (beats : list Beat) (threshold : Q) :
  length (snd (generate_graph sqrt beats threshold)) = length beats.
Proof.
  destruct (Nat.lt_trichotomy (length (snd (generate_graph sqrt beats threshold)))
                              (length beats)) as [Hlt|[Heq|Hgt]]; [|assumption|].
  - destruct (lookup_lt_is_Some_2 beats _ Hlt) as [b Hb].
    pose proof (generate_graph_lookup sqrt threshold beats
                  (length (snd (generate_graph sqrt beats threshold)))) as H.
    rewrite Hb, lookup_ge_None_2 in H by lia. discriminate.
  - destruct (lookup_lt_is_Some_2 _ _ Hgt) as [b Hb].
    rewrite generate_graph_lookup, lookup_ge_None_2 in Hb by lia. discriminate.
Qed.

Lemma row_edges_nil (threshold : Q) (bs : list Beat) (b1 : Beat) (i : nat) (js : list nat) :
  (forall b2, ~ pair_distance sqrt b1 b2 < threshold) ->
  row_edges sqrt threshold bs b1 i js = [].
Proof.
  intros Hno. induction js as [|j js IH]; [reflexivity|].
  rewrite row_edges_cons, IH.
  destruct (candidate sqrt threshold bs b1 i j) as [e|] eqn:Hc; [|reflexivity].
  apply candidate_Some in Hc as (_ & b2 & _ & _ & Hlt).
  destruct (Hno b2 Hlt).
Qed.

(** X5. [generate_graph] builds an undirected graph on beats that had no
    neighbours: when the list of beat [i] holds [(j, d)], the list of beat
    [j] holds [(i, d)], with the same distance. *)
Theorem generate_graph_undirected (beats : list Beat) (t : Q) (i j : nat) (d : Q) :
  fresh beats ->
  edge sqrt beats t i j d -> edge sqrt beats t j i d.
Proof.
  intros Hfresh (b' & Hb' & He). unfold edge.
  rewrite generate_graph_lookup in Hb'.
  destruct (beats !! i) as [b|] eqn:Hi; [|discriminate].
  injection Hb' as <-. simpl in He.
  rewrite (Forall_lookup_1 _ _ _ _ Hfresh Hi) in He. simpl in He.
  apply row_edges_elem in He as (Hne & b2 & Hj & Hd & Hlt).
  simpl in Hne, Hj, Hd, Hlt.
  rewrite generate_graph_lookup, Hj. eexists. split; [reflexivity|].
  simpl. apply elem_of_app. right.
  apply row_edges_elem. simpl. split; [congruence|].
  exists b. rewrite <- (pair_distance_swap b b2). auto.
Qed.

(** X6. [generate_graph] only appends: it keeps the number of beats, changes
    no feature of any beat, and leaves the entries a list already had at its
    front, in place. *)
Theorem generate_graph_only_appends (beats : list Beat) (t : Q) :
  length (snd (generate_graph sqrt beats t)) = length beats /\
  forall i b',
    snd (generate_graph sqrt beats t) !! i = Some b' ->
    exists b, beats !! i = Some b /\ features b' = features b /\
              neighbors b `prefix_of` neighbors b'.
Proof.
  split; [apply generate_graph_length|].
  intros i b' Hb'. rewrite generate_graph_lookup in Hb'.
  destruct (beats !! i) as [b|]; [|discriminate].
  injection Hb' as <-. exists b. split; [reflexivity|].
  split; [reflexivity|]. simpl. apply prefix_app_r. reflexivity.
Qed.

(** X7. Every destination [generate_graph] records is a position of the
    beat list: if the destinations already present are in range, all
    destinations of the result are. *)
Theorem generate_graph_dests_in_range (beats : list Beat) (t : Q) :
  Forall (fun b => Forall (fun e => (dest e < length beats)%nat) (neighbors b)) beats ->
  Forall (fun b => Forall (fun e => (dest e < length beats)%nat) (neighbors b))
         (snd (generate_graph sqrt beats t)).
Proof.
  intros Hin. apply Forall_lookup. intros i b' Hb'.
  rewrite generate_graph_lookup in Hb'.
  destruct (beats !! i) as [b|] eqn:Hi; [|discriminate].
  injection Hb' as <-. simpl. apply Forall_app. split.
  - exact (Forall_lookup_1 _ _ _ _ Hin Hi).
  - apply Forall_forall. intros e He.
    apply row_edges_elem in He as (_ & b2 & Hj & _).
    exact (lookup_lt_Some _ _ _ Hj).
Qed.

(** X8. The edge count [generate_graph] prints is exact: it is the number of
    entries the build added, that is, the entries in the returned lists minus
    those the lists held before. *)
Theorem generate_graph_edge_count (beats : list Beat) (t : Q) :
  exists n,
    fst (generate_graph sqrt beats t) = [GeneratingGraph t; CreatedEdges n] /\
    (n + total_neighbors beats
     = total_neighbors (snd (generate_graph sqrt beats t)))%nat.
Proof.
  exists (snd (graph_loops sqrt beats t)). split; [reflexivity|].
  apply graph_loops_count.
Qed.

(** X9. [generate_graph] is not idempotent: run a second time on its own
    result, at the same threshold, it appends every row once more, so each
    list of a graph built on beats without neighbours comes out doubled. *)
Theorem generate_graph_twice_doubles (beats : list Beat) (t : Q) (i : nat) (b1 b2 : Beat) :
  fresh beats ->
  snd (generate_graph sqrt beats t) !! i = Some b1 ->
  snd (generate_graph sqrt (snd (generate_graph sqrt beats t)) t) !! i = Some b2 ->
  neighbors b2 = neighbors b1 ++ neighbors b1.
Proof.
  intros Hfresh H1 H2.
  rewrite generate_graph_lookup, H1 in H2. injection H2 as <-.
  cbn [neighbors with_neighbors].
  change (fst (graph_loops sqrt beats t)) with (snd (generate_graph sqrt beats t)).
  rewrite generate_graph_length.
  rewrite generate_graph_lookup in H1.
  destruct (beats !! i) as [b|] eqn:Hi; [|discriminate].
  injection H1 as <-. cbn [neighbors with_neighbors].
  rewrite (Forall_lookup_1 _ _ _ _ Hfresh Hi). cbn [app]. f_equal.
  apply row_edges_ext; [|reflexivity].
  intros j. rewrite generate_graph_lookup.
  destruct (beats !! j); reflexivity.
Qed.

Hypothesis sqrt_nonneg : forall q, 0 <= sqrt q.

Lemma Qplus_nonneg_compat (a b : Q) : 0 <= a -> 0 <= b -> 0 <= a + b.
Proof.
  intros Ha Hb. apply (Qle_trans _ (0 + 0)); [discriminate|].
  apply Qplus_le_compat; assumption.
Qed.

Lemma get_seg_distances_nonneg_aux (a b : Beat) : 0 <= get_seg_distances sqrt a b.
Proof.
  unfold get_seg_distances, euclidean_distance, norm; cbv zeta.
  repeat apply Qplus_nonneg_compat; apply Qmult_le_0_compat;
    try apply sqrt_nonneg; try apply Qabs_nonneg; discriminate.
Qed.

Lemma pair_distance_nonneg (a b : Beat) : 0 <= pair_distance sqrt a b.
Proof.
  unfold pair_distance; cbv zeta.
  destruct (negb _); [|apply get_seg_distances_nonneg_aux].
  apply Qplus_nonneg_compat; [apply get_seg_distances_nonneg_aux | discriminate].
Qed.

(** X10. With a square root that is never negative, the distance between two
    beats is never negative, and it stays so with the phase penalty. *)
Theorem get_seg_distances_nonneg (a b : Beat) :
  0 <= get_seg_distances sqrt a b /\ 0 <= pair_distance sqrt a b.
Proof.
  split; [apply get_seg_distances_nonneg_aux | apply pair_distance_nonneg].
Qed.

(** X11. A threshold that is zero or negative connects nothing:
    [generate_graph] returns the beats as they were and prints an edge count
    of 0; no error is raised. *)
Theorem generate_graph_nonpositive_threshold (beats : list Beat) (t : Q) :
  t <= 0 ->
  generate_graph sqrt beats t = ([GeneratingGraph t; CreatedEdges 0], beats).
Proof.
  intros Ht.
  assert (Hsame : snd (generate_graph sqrt beats t) = beats).
  { apply list_eq. intros i. rewrite generate_graph_lookup.
    destruct (beats !! i) as [b|]; [|reflexivity]. simpl.
    rewrite row_edges_nil, app_nil_r, with_neighbors_id; [reflexivity|].
    intros b2 Hlt. apply (Qlt_not_le _ _ Hlt).
    apply (Qle_trans _ 0); [assumption | apply pair_distance_nonneg]. }
  pose proof (graph_loops_count beats t) as Hcount.
  change (fst (graph_loops sqrt beats t) = beats) in Hsame.
  rewrite Hsame in Hcount.
  assert (Hzero : snd (graph_loops sqrt beats t) = 0%nat) by lia.
  unfold generate_graph; cbv zeta. rewrite Hsame, Hzero. reflexivity.
Qed.

End GraphMore.

(** * Further properties: slicing *)

(** X12. A slice never fails and never invents samples: for any two bounds,
    negative or beyond the end, [y[a:b]] is a run of consecutive samples
    of [y]. *)
Theorem py_slice_infix {A : Type} (y : list A) (a b : Z) :
  exists before after, y = before ++ py_slice y a b ++ after.
Proof.
  unfold py_slice; cbv zeta.
  set (lo := Z.to_nat (clamp_index (Z.of_nat (length y)) a)).
  set (n := Z.to_nat (_ - _)).
  exists (take lo y), (drop n (drop lo y)).
  rewrite (take_drop n (drop lo y)), (take_drop lo y). reflexivity.
Qed.

(** X13. For bounds inside the buffer, [0 <= a <= b <= len(y)], the slice
    [y[a:b]] has exactly [b - a] samples. *)
Theorem py_slice_length {A : Type} (y : list A) (a b : Z) :
  (0 <= a)%Z -> (a <= b)%Z -> (b <= Z.of_nat (length y))%Z ->
  Z.of_nat (length (py_slice y a b)) = (b - a)%Z.
Proof.
  intros Ha Hab Hb. unfold py_slice, clamp_index; cbv zeta.
  rewrite (proj2 (Z.ltb_ge a 0)), (proj2 (Z.ltb_ge b 0)) by lia.
  rewrite !Z.min_l by lia.
  rewrite length_take, length_drop. lia.
Qed.

(** * Further properties: the generation loop *)

Lemma wrap_index_succ_mod (beats : list Beat) (k : nat) :
  beats <> [] ->
  wrap_index beats (k mod length beats + 1) = (S k mod length beats)%nat.
Proof.
  intros Hne. unfold wrap_index.
  assert (Hn : length beats <> 0%nat) by (destruct beats; [congruence | discriminate]).
  pose proof (Nat.mod_upper_bound k _ Hn) as Hr.
  pose proof (Nat.div_mod_eq k (length beats)) as Hk.
  destruct (Nat.leb_spec (length beats) (k mod length beats + 1)).
  - apply (Nat.mod_unique _ _ (k / length beats + 1)); lia.
  - apply (Nat.mod_unique _ _ (k / length beats)); lia.
Qed.

Lemma wrap_index_in_range (beats : list Beat) (ci : nat) :
  beats <> [] -> (wrap_index beats ci < length beats)%nat.
Proof.
  intros Hne. unfold wrap_index.
  destruct (Nat.leb_spec (length beats) ci); [|assumption].
  assert (length beats <> 0%nat) by (intros ->%length_zero_iff_nil; congruence).
  lia.
Qed.

Section GeneratorMore.

Variable y : list Q.
Variable sr : Z.
Variable beats : list Beat.
Variable duration_minutes : Q.
Variable branch_probability : Q.

Local Abbreviation target := (target_samples sr duration_minutes).
Local Abbreviation body := (loop_body y sr beats branch_probability).
Local Abbreviation loop := (gen_loop y sr beats duration_minutes branch_probability).

(** A property kept by every iteration holds when the loop returns. *)
Lemma gen_loop_invariant (P : GenState -> Prop) rs :
  (forall st st',
      loop_guard sr duration_minutes st = true ->
      body rs st = inr st' -> P st -> P st') ->
  forall fuel st st', loop rs fuel st = Returned st' -> P st -> P st'.
Proof.
  intros Hstep. induction fuel as [|fuel IH]; intros st st' Hrun HP;
    simpl in Hrun; destruct (loop_guard sr duration_minutes st) eqn:Hg;
    try discriminate; try (injection Hrun as <-; assumption).
  destruct (body rs st) as [e|st1] eqn:Hb; [discriminate|].
  exact (IH st1 st' Hrun (Hstep st st1 Hg Hb HP)).
Qed.

(** What one iteration does to [current_index]: a step forward from the
    wrapped index, or a jump to the destination of one of the neighbours. *)
Lemma loop_body_next rs (st st' : GenState) (beat : Beat) :
  beats !! wrap_index beats (current_index st) = Some beat ->
  body rs st = inr st' ->
  (current_index st' = wrap_index beats (current_index st) + 1)%nat \/
  exists e, e ∈ neighbors beat /\ current_index st' = dest e.
Proof.
  intros Hbeat. unfold loop_body; cbv zeta. rewrite Hbeat.
  destruct (neighbors beat) as [|nb nbs] eqn:Hn.
  - intros [= <-]. left. reflexivity.
  - destruct (Qltb _ _).
    + destruct (choice _ _ _) as [e|] eqn:Hc; [|discriminate].
      intros [= <-]. right. exists e. split; [|reflexivity].
      unfold choice in Hc. exact (list_elem_of_lookup_2 _ _ _ Hc).
    + intros [= <-]. left. reflexivity.
Qed.

(** The non-empty list about to be written has all its segments but the
    last below the target. *)
Lemma gen_loop_last_segment rs (fuel : nat) (st : GenState) :
  loop rs fuel initial_state = Returned st ->
  gen_inv st /\ (target <= generated_samples st)%Z /\
  (output_segments st = [] \/
   exists segs last,
     output_segments st = segs ++ [last] /\
     (Z.of_nat (length (concat segs)) < target)%Z).
Proof.
  intros Hrun.
  destruct (gen_loop_returned y sr beats duration_minutes branch_probability
              rs fuel _ _ Hrun) as (Hinv & Hge & _); [reflexivity|].
  split; [assumption|]. split; [assumption|].
  apply (gen_loop_invariant
           (fun s => gen_inv s ->
              output_segments s = [] \/
              exists segs last,
                output_segments s = segs ++ [last] /\
                (Z.of_nat (length (concat segs)) < target)%Z)
           rs) with (fuel := fuel) (st := initial_state); auto.
  intros s s' Hg Hb HP Hinv'. right.
  pose proof Hb as (beat & _ & Hout & Hgs)%loop_body_emits.
  exists (output_segments s), (beat_segment y sr beat). split; [assumption|].
  unfold loop_guard in Hg. apply Z.ltb_lt in Hg.
  assert (Hs : gen_inv s).
  { unfold gen_inv in *. rewrite Hout, Hgs in Hinv'.
    rewrite concat_app, length_app in Hinv'. simpl in Hinv'.
    rewrite app_nil_r in Hinv'. lia. }
  unfold gen_inv in Hs. lia.
Qed.

(** X15. Trimming cuts only the last segment: the written buffer consists of
    every emitted segment but the last, whole and in order, followed by a
    non-empty beginning of the last one. *)
Theorem trim_cuts_last_segment rs (fuel : nat) (log : list Event) (out : list Q) :
  generate_infinite_track y sr beats duration_minutes branch_probability rs fuel
    = (log, Returned out) ->
  exists st segs last k,
    loop rs fuel initial_state = Returned st /\
    output_segments st = segs ++ [last] /\
    (1 <= k <= length last)%nat /\
    out = concat segs ++ take k last.
Proof.
  intros Hrun.
  apply generate_infinite_track_returned in Hrun as (Hpos & Hlen & st & Hst & ->).
  destruct (gen_loop_last_segment rs fuel st Hst) as (Hinv & Hge & [Hnil|Hlast]).
  - unfold gen_inv in Hinv. rewrite Hnil in Hinv. simpl in Hinv. lia.
  - destruct Hlast as (segs & last & Hout & Hlt).
    unfold gen_inv in Hinv. rewrite Hout, concat_app, length_app in Hinv.
    simpl in Hinv. rewrite app_nil_r in Hinv.
    exists st, segs, last, (Z.to_nat target - length (concat segs))%nat.
    split; [assumption|]. split; [assumption|]. split; [lia|].
    rewrite Hout, concat_app. simpl. rewrite app_nil_r.
    rewrite take_app_ge by lia. reflexivity.
Qed.

Hypothesis beats_nonempty : beats <> [].

Lemma loop_body_total rs (st : GenState) : exists st', body rs st = inr st'.
Proof.
  destruct (lookup_lt_is_Some_2 beats _
              (wrap_index_in_range beats (current_index st) beats_nonempty))
    as [beat Hbeat].
  unfold loop_body; cbv zeta. rewrite Hbeat.
  destruct (neighbors beat) as [|nb nbs]; [eauto|].
  destruct (Qltb _ _); [|eauto].
  unfold choice.
  destruct (lookup_lt_is_Some_2 (nb :: nbs)
              (choice_at rs (S (draws st)) mod length (nb :: nbs))%nat)
    as [next_beat ->]; [|eauto].
  apply Nat.mod_upper_bound. simpl; lia.
Qed.

Lemma gen_loop_no_raise rs (fuel : nat) :
  forall st e, loop rs fuel st <> Raised e.
Proof.
  induction fuel as [|fuel IH]; intros st e; simpl;
    destruct (loop_guard sr duration_minutes st); try discriminate.
  destruct (loop_body_total rs st) as [st' ->]. apply IH.
Qed.

(** X16. With at least one beat, [generate_infinite_track] never fails on a
    subscript, whatever the graph, the probability and the draws: neither
    [beats[current_index]] nor [random.choice(neighbors)] raises an
    IndexError. *)
Theorem generate_infinite_track_no_index_error rs (fuel : nat)
    (log : list Event) (e : PyError) :
  generate_infinite_track y sr beats duration_minutes branch_probability rs fuel
    = (log, Raised e) ->
  e <> IndexError.
Proof.
  unfold generate_infinite_track.
  destruct (loop rs fuel initial_state) as [st|e'|] eqn:Hrun.
  - destruct (np_concatenate (output_segments st)) as [e'|full] eqn:Hcat;
      [|discriminate].
    unfold np_concatenate in Hcat.
    destruct (output_segments st); [|discriminate].
    injection Hcat as <-. intros [= _ <-]. discriminate.
  - destruct (gen_loop_no_raise rs fuel initial_state e' Hrun).
  - discriminate.
Qed.

End GeneratorMore.

(** * Further properties: walks without branching, and walks on a built graph *)

Section Walks.

Variable y : list Q.
Variable sr : Z.
Variable beats : list Beat.
Variable duration_minutes : Q.
Variable branch_probability : Q.

Lemma Qltb_false_ge (x p : Q) : p <= x -> Qltb x p = false.
Proof.
  intros Hle. unfold Qltb. apply negb_false_iff, Qle_bool_iff. assumption.
Qed.

(** An iteration that cannot branch steps to the next index. *)
Lemma loop_body_step rs (st st' : GenState) :
  fresh beats \/ (forall t, branch_probability <= random_at rs t) ->
  loop_body y sr beats branch_probability rs st = inr st' ->
  current_index st' = (wrap_index beats (current_index st) + 1)%nat.
Proof.
  intros Hno. unfold loop_body; cbv zeta.
  destruct (beats !! wrap_index beats (current_index st)) as [beat|] eqn:Hbeat;
    [|discriminate].
  destruct (neighbors beat) as [|nb nbs] eqn:Hn; [intros [= <-]; reflexivity|].
  destruct Hno as [Hfresh|Hp].
  - pose proof (Forall_lookup_1 _ _ _ _ Hfresh Hbeat) as Hnil. simpl in Hnil.
    congruence.
  - rewrite (Qltb_false_ge _ _ (Hp (draws st))). intros [= <-]. reflexivity.
Qed.

Lemma cyclic_segment_wrap (st : GenState) (beat : Beat) (k : nat) :
  wrap_index beats (current_index st) = (k mod length beats)%nat ->
  beats !! wrap_index beats (current_index st) = Some beat ->
  cyclic_segment y sr beats k = beat_segment y sr beat.
Proof. intros Hw Hb. unfold cyclic_segment. rewrite <- Hw, Hb. reflexivity. Qed.

(** X17. A walk that cannot branch, because no beat has a neighbour or
    because no draw falls below the branch probability, replays the beats in
    order, wrapping from the last to the first: the [k]-th emitted segment is
    that of beat [k mod len(beats)]. *)
Theorem sequential_replay rs (fuel : nat) (st : GenState) :
  beats <> [] ->
  fresh beats \/ (forall t, branch_probability <= random_at rs t) ->
  gen_loop y sr beats duration_minutes branch_probability rs fuel initial_state
    = Returned st ->
  output_segments st
  = cyclic_segment y sr beats <$> seq 0 (length (output_segments st)).
Proof.
  intros Hne Hno Hrun.
  apply (gen_loop_invariant y sr beats duration_minutes branch_probability
           (fun s =>
              output_segments s
              = cyclic_segment y sr beats <$> seq 0 (length (output_segments s)) /\
              wrap_index beats (current_index s)
              = (length (output_segments s) mod length beats)%nat)
           rs) with (fuel := fuel) (st := initial_state) (st' := st);
    [|assumption|].
  - intros s s' _ Hb [Hout Hw].
    pose proof (loop_body_step rs s s' Hno Hb) as Hnext.
    apply loop_body_emits in Hb as (beat & Hbeat & Hout' & _).
    rewrite Hout', length_app. cbn [length].
    rewrite Nat.add_1_r, seq_S, fmap_app. cbn [fmap list_fmap Nat.add].
    split.
    + rewrite <- Hout. f_equal. f_equal. symmetry.
      apply (cyclic_segment_wrap s beat); assumption.
    + rewrite Hnext, Hw. apply wrap_index_succ_mod. assumption.
  - split; [reflexivity|]. simpl. unfold wrap_index.
    destruct beats; [congruence|]. simpl. rewrite Nat.sub_diag. reflexivity.
Qed.

Lemma loop_body_fresh rs1 rs2 (st : GenState) :
  fresh beats ->
  loop_body y sr beats branch_probability rs1 st
  = loop_body y sr beats branch_probability rs2 st.
Proof.
  intros Hfresh. unfold loop_body; cbv zeta.
  destruct (beats !! wrap_index beats (current_index st)) as [beat|] eqn:Hbeat;
    [|reflexivity].
  pose proof (Forall_lookup_1 _ _ _ _ Hfresh Hbeat) as Hnil. simpl in Hnil.
  rewrite Hnil. reflexivity.
Qed.

(** X18. When no beat has a neighbour the random source is never consulted:
    the run and its output are the same for any two random sources. *)
Theorem no_edges_no_randomness rs1 rs2 (fuel : nat) :
  fresh beats ->
  generate_infinite_track y sr beats duration_minutes branch_probability rs1 fuel
  = generate_infinite_track y sr beats duration_minutes branch_probability rs2 fuel.
Proof.
  intros Hfresh. unfold generate_infinite_track.
  assert (Hloop : forall st,
            gen_loop y sr beats duration_minutes branch_probability rs1 fuel st
            = gen_loop y sr beats duration_minutes branch_probability rs2 fuel st).
  { induction fuel as [|n IH]; intros st; simpl; [reflexivity|].
    rewrite (loop_body_fresh rs1 rs2 st Hfresh).
    destruct (loop_guard _ _ _); [|reflexivity].
    destruct (loop_body _ _ _ _ rs2 st); [reflexivity | apply IH]. }
  rewrite Hloop. reflexivity.
Qed.

End Walks.

(** X19. On a graph built by [generate_graph] from at least two beats
    without neighbours, the walk never plays the same beat twice in a row:
    after any iteration, step or jump, the next beat to play differs from
    the one just played. *)
Theorem built_graph_no_immediate_repeat sqrt (y : list Q) (sr : Z)
    (beats : list Beat) (t p : Q) (rs : RandomSource) (st st' : GenState) :
  fresh beats ->
  (2 <= length beats)%nat ->
  loop_body y sr (snd (generate_graph sqrt beats t)) p rs st = inr st' ->
  wrap_index (snd (generate_graph sqrt beats t)) (current_index st')
  <> wrap_index (snd (generate_graph sqrt beats t)) (current_index st).
Proof.
  intros Hfresh Hlen Hb.
  pose proof (generate_graph_length sqrt beats t) as Hgl.
  assert (Hne : snd (generate_graph sqrt beats t) <> []).
  { intros Hnil. rewrite Hnil in Hgl. simpl in Hgl. lia. }
  pose proof (wrap_index_in_range _ (current_index st) Hne) as Hci.
  destruct (lookup_lt_is_Some_2 _ _ Hci) as [b' Hb'].
  destruct (loop_body_next y sr _ p rs st st' b' Hb' Hb) as [Hstep|(e & He & Hjump)].
  - rewrite Hstep. unfold wrap_index at 1.
    destruct (Nat.leb_spec (length (snd (generate_graph sqrt beats t)))
                (wrap_index (snd (generate_graph sqrt beats t)) (current_index st) + 1));
      lia.
  - rewrite generate_graph_lookup in Hb'.
    destruct (beats !! wrap_index (snd (generate_graph sqrt beats t)) (current_index st))
      as [b|] eqn:Hi; [|discriminate].
    injection Hb' as <-. simpl in He.
    rewrite (Forall_lookup_1 _ _ _ _ Hfresh Hi) in He. simpl in He.
    apply row_edges_elem in He as (Hd & b2 & Hj & _).
    apply lookup_lt_Some in Hj.
    rewrite Hjump. unfold wrap_index at 1.
    rewrite (proj2 (Nat.leb_gt _ _)) by lia. exact Hd.
Qed.

(** * Further properties: the pipeline on a track without beats *)

(** X20. A track on which fewer than two beat markers are found yields no
    beat, and [main] then fails late: it builds an empty graph, prints an
    edge count of 0, and, the target being positive, stops with an
    IndexError on [beats[0]] in the first iteration of the generation loop. *)
Theorem main_too_few_markers sqrt (y : list Q) (sr : Z) (beat_times : list Q)
    (sync : list SyncColumn) (duration threshold prob : Q) (rs : RandomSource)
    (fuel : nat) :
  (length beat_times <= 1)%nat ->
  (0 < target_samples sr duration)%Z ->
  make_beats beat_times sync = [] /\
  main sqrt y sr (make_beats beat_times sync) duration threshold prob rs (S fuel)
  = ([GeneratingGraph threshold; CreatedEdges 0; GeneratingAudio duration],
     Raised IndexError).
Proof.
  intros Hlen Hpos.
  assert (Hnil : make_beats beat_times sync = []).
  { apply length_zero_iff_nil. unfold make_beats.
    rewrite (proj1 (make_beats_prefix beat_times sync (length sync) ltac:(lia))).
    lia. }
  split; [assumption|]. rewrite Hnil.
  unfold main, generate_infinite_track.
  cbn [generate_graph graph_loops foldl length seq fst snd gen_loop].
  assert (Hg : loop_guard sr duration initial_state = true).
  { unfold loop_guard; simpl. apply Z.ltb_lt. assumption. }
  rewrite Hg. reflexivity.
Qed.

(** * Worked examples for the further properties *)

Lemma beat_times_ex_increasing : increasing beat_times_ex.
Proof.
  intros i t0 t1.
  do 5 (destruct i as [|i]; [intros [= <-] [= <-]; reflexivity|]).
  destruct i; intros _ [=].
Defined.

Lemma sqrt_milli_nonneg (q : Q) : 0 <= sqrt_milli q.
Proof.
  unfold sqrt_milli, Qle. cbn [Qnum Qden].
  generalize (Z.sqrt_nonneg (Qfloor (q * 1000000))). lia.
Defined.

Lemma make_beats_positive_duration_witness :
  increasing beat_times_ex /\
  Forall (fun b => 0 < duration b) (make_beats beat_times_ex sync_ex).
Proof.
  split; [exact beat_times_ex_increasing|].
  exact (make_beats_positive_duration beat_times_ex sync_ex beat_times_ex_increasing).
Defined.

Lemma generate_graph_undirected_witness :
  fresh beats_ex /\
  edge sqrt_milli beats_ex 60 0 4 d04_ex /\
  edge sqrt_milli beats_ex 60 4 0 d04_ex.
Proof.
  assert (He : edge sqrt_milli beats_ex 60 0 4 d04_ex).
  { eexists. split; [vm_compute; reflexivity|]. vm_compute. constructor. }
  split; [exact beats_ex_fresh|]. split; [exact He|].
  exact (generate_graph_undirected sqrt_milli beats_ex 60 0 4 d04_ex beats_ex_fresh He).
Defined.

Lemma generate_graph_dests_in_range_witness :
  Forall (fun b => Forall (fun e => (dest e < length beats_ex)%nat) (neighbors b))
         beats_ex /\
  Forall (fun b => Forall (fun e => (dest e < length beats_ex)%nat) (neighbors b))
         (snd (generate_graph sqrt_milli beats_ex 60)).
Proof.
  assert (H : Forall (fun b => Forall (fun e => (dest e < length beats_ex)%nat)
                                      (neighbors b)) beats_ex)
    by (repeat constructor).
  split; [exact H|].
  exact (generate_graph_dests_in_range sqrt_milli beats_ex 60 H).
Defined.

Lemma generate_graph_twice_doubles_witness :
  fresh beats_ex /\
  snd (generate_graph sqrt_milli beats_ex 60) !! 0%nat = Some graph0_ex /\
  snd (generate_graph sqrt_milli (snd (generate_graph sqrt_milli beats_ex 60)) 60)
    !! 0%nat = Some graph0_twice_ex /\
  neighbors graph0_twice_ex = neighbors graph0_ex ++ neighbors graph0_ex.
Proof.
  assert (H1 : snd (generate_graph sqrt_milli beats_ex 60) !! 0%nat = Some graph0_ex)
    by (vm_compute; reflexivity).
  assert (H2 : snd (generate_graph sqrt_milli
                      (snd (generate_graph sqrt_milli beats_ex 60)) 60) !! 0%nat
               = Some graph0_twice_ex)
    by (vm_compute; reflexivity).
  split; [exact beats_ex_fresh|]. split; [exact H1|]. split; [exact H2|].
  exact (generate_graph_twice_doubles sqrt_milli beats_ex 60 0
           graph0_ex graph0_twice_ex beats_ex_fresh H1 H2).
Defined.

Lemma get_seg_distances_nonneg_witness :
  (forall q, 0 <= sqrt_milli q) /\
  0 <= get_seg_distances sqrt_milli beat0_ex beat1_ex /\
  0 <= pair_distance sqrt_milli beat0_ex beat1_ex.
Proof.
  split; [exact sqrt_milli_nonneg|].
  exact (get_seg_distances_nonneg sqrt_milli sqrt_milli_nonneg beat0_ex beat1_ex).
Defined.

Lemma generate_graph_nonpositive_threshold_witness :
  -5 <= 0 /\
  generate_graph sqrt_milli beats_ex (-5)
  = ([GeneratingGraph (-5); CreatedEdges 0], beats_ex).
Proof.
  assert (Ht : -5 <= 0) by discriminate.
  split; [exact Ht|].
  exact (generate_graph_nonpositive_threshold sqrt_milli sqrt_milli_nonneg
           beats_ex (-5) Ht).
Defined.

Lemma py_slice_length_witness :
  (0 <= 4)%Z /\ (4 <= 8)%Z /\ (8 <= Z.of_nat (length y_ex))%Z /\
  Z.of_nat (length (py_slice y_ex 4 8)) = (8 - 4)%Z.
Proof.
  assert (Ha : (0 <= 4)%Z) by lia.
  assert (Hab : (4 <= 8)%Z) by lia.
  assert (Hb : (8 <= Z.of_nat (length y_ex))%Z) by (vm_compute; discriminate).
  split; [exact Ha|]. split; [exact Hab|]. split; [exact Hb|].
  exact (py_slice_length y_ex 4 8 Ha Hab Hb).
Defined.

Lemma trim_cuts_last_segment_witness :
  generate_infinite_track y_ex sr_ex graph_ex (3 # 256) 0 rs_ex 10
  = ([GeneratingAudio (3 # 256); Concatenating; Saving; DoneMsg],
     Returned [0; 1; 2; 3; 4]) /\
  exists st segs last k,
    gen_loop y_ex sr_ex graph_ex (3 # 256) 0 rs_ex 10 initial_state = Returned st /\
    output_segments st = segs ++ [last] /\
    (1 <= k <= length last)%nat /\
    [0; 1; 2; 3; 4] = concat segs ++ take k last.
Proof.
  assert (Hrun : generate_infinite_track y_ex sr_ex graph_ex (3 # 256) 0 rs_ex 10
                 = ([GeneratingAudio (3 # 256); Concatenating; Saving; DoneMsg],
                    Returned [0; 1; 2; 3; 4]))
    by (vm_compute; reflexivity).
  split; [exact Hrun|].
  exact (trim_cuts_last_segment y_ex sr_ex graph_ex (3 # 256) 0 rs_ex 10 _ _ Hrun).
Defined.

Lemma generate_infinite_track_no_index_error_witness :
  graph_ex <> [] /\
  generate_infinite_track y_ex sr_ex graph_ex 0 (1 # 2) rs_ex 1
  = ([GeneratingAudio 0; Concatenating], Raised ValueError) /\
  ValueError <> IndexError.
Proof.
  assert (Hrun : generate_infinite_track y_ex sr_ex graph_ex 0 (1 # 2) rs_ex 1
                 = ([GeneratingAudio 0; Concatenating], Raised ValueError))
    by (vm_compute; reflexivity).
  split; [exact graph_ex_nonempty|]. split; [exact Hrun|].
  exact (generate_infinite_track_no_index_error y_ex sr_ex graph_ex 0 (1 # 2)
           graph_ex_nonempty rs_ex 1 _ _ Hrun).
Defined.

Lemma sequential_replay_witness :
  graph_ex <> [] /\
  (forall t, 0 <= random_at rs_ex t) /\
  gen_loop y_ex sr_ex graph_ex (1 # 16) 0 rs_ex 30 initial_state = Returned walk_ex /\
  output_segments walk_ex
  = cyclic_segment y_ex sr_ex graph_ex <$> seq 0 (length (output_segments walk_ex)).
Proof.
  assert (Hp : forall t, 0 <= random_at rs_ex t) by (intros t; discriminate).
  assert (Hrun : gen_loop y_ex sr_ex graph_ex (1 # 16) 0 rs_ex 30 initial_state
                 = Returned walk_ex)
    by (vm_compute; reflexivity).
  split; [exact graph_ex_nonempty|]. split; [exact Hp|]. split; [exact Hrun|].
  exact (sequential_replay y_ex sr_ex graph_ex (1 # 16) 0 rs_ex 30 walk_ex
           graph_ex_nonempty (or_intror Hp) Hrun).
Defined.

Lemma no_edges_no_randomness_witness :
  fresh beats_ex /\
  generate_infinite_track y_ex sr_ex beats_ex (1 # 16) 1 rs_ex 30
  = generate_infinite_track y_ex sr_ex beats_ex (1 # 16) 1 rs_other 30.
Proof.
  split; [exact beats_ex_fresh|].
  exact (no_edges_no_randomness y_ex sr_ex beats_ex (1 # 16) 1 rs_ex rs_other 30
           beats_ex_fresh).
Defined.

Lemma built_graph_no_immediate_repeat_witness :
  fresh beats_ex /\ (2 <= length beats_ex)%nat /\
  loop_body y_ex sr_ex (snd (generate_graph sqrt_milli beats_ex 60)) 1 rs_ex
            initial_state = inr jump_ex /\
  wrap_index (snd (generate_graph sqrt_milli beats_ex 60)) (current_index jump_ex)
  <> wrap_index (snd (generate_graph sqrt_milli beats_ex 60))
                (current_index initial_state).
Proof.
  assert (Hlen : (2 <= length beats_ex)%nat) by (vm_compute; lia).
  assert (Hb : loop_body y_ex sr_ex (snd (generate_graph sqrt_milli beats_ex 60)) 1
                 rs_ex initial_state = inr jump_ex)
    by (vm_compute; reflexivity).
  split; [exact beats_ex_fresh|]. split; [exact Hlen|]. split; [exact Hb|].
  exact (built_graph_no_immediate_repeat sqrt_milli y_ex sr_ex beats_ex 60 1 rs_ex
           initial_state jump_ex beats_ex_fresh Hlen Hb).
Defined.

Lemma main_too_few_markers_witness :
  (length [1 # 2] <= 1)%nat /\ (0 < target_samples sr_ex 1)%Z /\
  make_beats [1 # 2] sync_ex = [] /\
  main sqrt_milli y_ex sr_ex (make_beats [1 # 2] sync_ex) 1 60 (1 # 2) rs_ex 1
  = ([GeneratingGraph 60; CreatedEdges 0; GeneratingAudio 1], Raised IndexError).
Proof.
  assert (Hlen : (length [1 # 2] <= 1)%nat) by (simpl; lia).
  assert (Hpos : (0 < target_samples sr_ex 1)%Z) by reflexivity.
  split; [exact Hlen|]. split; [exact Hpos|].
  exact (main_too_few_markers sqrt_milli y_ex sr_ex [1 # 2] sync_ex 1 60 (1 # 2)
           rs_ex 0 Hlen Hpos).
Defined.
